(** * Lyric alignment engine of [align_whisper.py]

    A shallow embedding of [normalize_text], [word_similarity] and
    [fallback_align], and the properties of the alignment pass.

    Modelling conventions.
    - A Python [str] is the list of its code points ([list N]).
    - A Python [float] is an element of the carrier [flt] of [FloatOps]:
      the program is written over the four operations, the conversion of
      a count and the comparison [<], and nothing is assumed about
      rounding. Two carriers are given: [binary64], the floats of the
      interpreter, on which the program runs by evaluation, and
      [rational], exact arithmetic. A property that depends on the
      arithmetic names what it takes from it: [FloatOrder], [FloatTwo] or
      [FloatLaws]. [None] is [None].
    - Indices and lengths are [nat]. The source subtracts in three places:
      [len(words_timeline) - start_idx] with [start_idx] below the length,
      and [best_start_idx + len(lyric_words) - 1] and
      [len(words_timeline) - 1] in a branch where the line has a word and
      the timeline a token; none can go below zero.
    - Operations that can raise ([/] on a zero divisor, subscripting a
      list out of range) live in the error monad [result]. *)

From Stdlib Require Import QArith Lqa Lia String Ascii Floats Uint63.
From stdpp Require Import base list gmap.

Local Open Scope nat_scope.

(** ** Exceptions *)

Inductive exn := ZeroDivisionError | IndexError.

Inductive result (A : Type) :=
  | Ok (a : A)
  | Raise (e : exn).
Arguments Ok {A} a.
Arguments Raise {A} e.

#[global] Instance result_ret : MRet result := fun _ a => Ok a.
#[global] Instance result_bind : MBind result := fun _ _ f m =>
  match m with Ok a => f a | Raise e => Raise e end.

(** [for x in xs: acc = body(acc, x)] with exceptions propagated. *)
Fixpoint foldM {A B} (body : A → B → result A) (acc : A) (xs : list B)
  : result A :=
  match xs with
  | [] => Ok acc
  | x :: xs' => acc' ← body acc x; foldM body acc' xs'
  end.

(** A list comprehension [[f(x) for x in xs]] whose body can raise. *)
Fixpoint forM {A B} (f : A → result B) (xs : list A) : result (list B) :=
  match xs with
  | [] => Ok []
  | x :: xs' => y ← f x; ys ← forM f xs'; Ok (y :: ys)
  end.

(** [xs[i]] for a non-negative [i]. *)
Definition subscript {A} (xs : list A) (i : nat) : result A :=
  match xs !! i with Some x => Ok x | None => Raise IndexError end.

(** ** Floats *)

(** The operations of [float] the program uses: [+], [-], [*], [/],
    [float(n)] for a count [n], and the comparison [a < b]. *)
Class FloatOps := {
  flt : Type;
  fadd : flt → flt → flt;
  fsub : flt → flt → flt;
  fmul : flt → flt → flt;
  fdiv : flt → flt → flt;
  flt_of_nat : nat → flt;
  fltb : flt → flt → bool;
}.

Declare Scope flt_scope.
Delimit Scope flt_scope with F.
Bind Scope flt_scope with flt.

Definition flt_lt `{FloatOps} (a b : flt) : Prop := fltb a b = true.
(** [a <= b] on floats that are not NaN: [b < a] is false. *)
Definition flt_le `{FloatOps} (a b : flt) : Prop := fltb b a = false.
Definition flt_eq `{FloatOps} (a b : flt) : Prop := flt_le a b ∧ flt_le b a.

Notation "a + b" := (fadd a b) : flt_scope.
Notation "a - b" := (fsub a b) : flt_scope.
Notation "a * b" := (fmul a b) : flt_scope.
Notation "a / b" := (fdiv a b) : flt_scope.
Notation "a < b" := (flt_lt a b) : flt_scope.
Notation "a <= b" := (flt_le a b) : flt_scope.
Notation "a == b" := (flt_eq a b) (at level 70, no associativity) : flt_scope.
Notation "a <= b <= c" := (flt_le a b ∧ flt_le b c) : flt_scope.
Notation "0" := (flt_of_nat 0) : flt_scope.
Notation "1" := (flt_of_nat 1) : flt_scope.
Notation "2" := (flt_of_nat 2) : flt_scope.

(** What the properties assume of the comparison: [<] is a strict weak
    order, as it is on floats that are not NaN. *)
Class FloatOrder `{FloatOps} : Prop := {
  flt_lt_irrefl : ∀ a, ¬ (a < a)%F;
  flt_lt_trans : ∀ a b c, (a < b)%F → (b < c)%F → (a < c)%F;
  flt_le_trans : ∀ a b c, (a <= b)%F → (b <= c)%F → (a <= c)%F;
}.

(** The one sum the properties need in closed form: [0.0 + 2.0] is
    [2.0]. *)
Class FloatTwo `{FloatOps} : Prop :=
  zero_plus_two : (0 + 2)%F = 2%F.

(** What the properties assume of the arithmetic. Every law holds of
    exact arithmetic, and of the interpreter's binary64 floats as long as
    no value is NaN or infinite, counts and times are below 2^53 and
    durations are not subnormal: the laws on sums, products and quotients
    follow from rounding to nearest being monotone and exact on
    representable results. No law asks more of a sum, a product or a
    quotient than rounding to nearest gives. *)
Class FloatLaws `{FloatOps} : Prop := {
  flt_order :: FloatOrder;
  flt_two :: FloatTwo;
  (** Counts convert in order. *)
  flt_of_nat_lt : ∀ n m, (n < m)%nat → (flt_of_nat n < flt_of_nat m)%F;
  (** The quotient of two counts [n ≤ d]. *)
  ratio_range : ∀ n d, (n ≤ d)%nat → (0 < d)%nat →
    (0 <= flt_of_nat n / flt_of_nat d <= 1)%F;
  ratio_one : ∀ n d, (n ≤ d)%nat → (0 < d)%nat →
    (flt_of_nat n / flt_of_nat d == 1)%F ↔ n = d;
  ratio_zero : ∀ n d, (n ≤ d)%nat → (0 < d)%nat →
    (flt_of_nat n / flt_of_nat d == 0)%F ↔ n = 0%nat;
  (** Adding. *)
  fadd_nonneg : ∀ x t, (0 <= t)%F → (x <= x + t)%F;
  fadd_mono : ∀ x a b, (a <= b)%F → (x + a <= x + b)%F;
  fadd_zero : ∀ x z, (z == 0)%F → (x + z == x)%F;
  fadd_two : ∀ x, (x < x + 2)%F;
  (** Multiplying a count. *)
  fmul_nonneg : ∀ n t, (0 <= t)%F → (0 <= flt_of_nat n * t)%F;
  fmul_mono : ∀ n m t, (n ≤ m)%nat → (0 <= t)%F →
    (flt_of_nat n * t <= flt_of_nat m * t)%F;
  (** A duration and its parts. *)
  fsub_diag : ∀ a b, (a == b)%F → (b - a == 0)%F;
  fdiv_zero : ∀ z d, (z == 0)%F → (0 < d)%nat → (z / flt_of_nat d == 0)%F;
  part_nonneg : ∀ s e k, (s <= e)%F → (0 < k)%nat →
    (0 <= (e - s) / flt_of_nat k)%F;
  part_within : ∀ s e i k, (s <= e)%F → (i < k)%nat →
    (s + flt_of_nat i * ((e - s) / flt_of_nat k) <= e)%F;
}.

(** The laws as a test that can be run: every law at every choice of its
    counts among [counts] and of its floats among [times]. *)
Section LawsTest.
Context `{FloatOps}.

Definition ble (a b : flt) : bool := negb (fltb b a).
Definition beq (a b : flt) : bool := ble a b && ble b a.

Definition for_all {A} (xs : list A) (p : A → bool) : bool := forallb p xs.

Definition order_laws_hold_on (times : list flt) : bool :=
  for_all times (λ a, negb (fltb a a)
    && for_all times (λ b, for_all times (λ c,
         implb (fltb a b && fltb b c) (fltb a c)
         && implb (ble a b && ble b c) (ble a c)))).

Definition count_laws_hold_on (counts : list nat) : bool :=
  for_all counts (λ n, for_all counts (λ d,
    implb (n <? d) (fltb (flt_of_nat n) (flt_of_nat d))
    && implb ((n <=? d) && (0 <? d))
         (let q := (flt_of_nat n / flt_of_nat d)%F in
          ble 0%F q && ble q 1%F
          && Bool.eqb (beq q 1%F) (n =? d)
          && Bool.eqb (beq q 0%F) (n =? 0)))).

Definition sum_laws_hold_on (times : list flt) : bool :=
  for_all times (λ x,
    fltb x (x + 2)%F
    && for_all times (λ a,
         implb (ble 0%F a) (ble x (x + a)%F)
         && implb (beq a 0%F) (beq (x + a)%F x)
         && implb (beq x a) (beq (a - x)%F 0%F)
         && for_all times (λ b, implb (ble a b) (ble (x + a)%F (x + b)%F)))).

Definition part_laws_hold_on (counts : list nat) (times : list flt) : bool :=
  for_all counts (λ k, for_all times (λ s,
    implb (ble 0%F s) (ble 0%F (flt_of_nat k * s)%F)
    && implb (beq s 0%F && (0 <? k)) (beq (s / flt_of_nat k)%F 0%F)
    && for_all counts (λ i,
         implb ((i <=? k) && ble 0%F s)
           (ble (flt_of_nat i * s)%F (flt_of_nat k * s)%F))
    && for_all times (λ e,
         implb (ble s e && (0 <? k))
           (ble 0%F ((e - s) / flt_of_nat k)%F
            && for_all counts (λ i,
                 implb (i <? k)
                   (ble (s + flt_of_nat i * ((e - s) / flt_of_nat k))%F
                        e)))))).

Definition laws_hold_on (counts : list nat) (times : list flt) : bool :=
  order_laws_hold_on times && count_laws_hold_on counts
  && sum_laws_hold_on times && part_laws_hold_on counts times.

End LawsTest.

(** [a / n] for a float or a count [a] and a count [n]; dividing by zero
    raises. *)
Definition truediv `{FloatOps} (a : flt) (n : nat) : result flt :=
  match n with
  | O => Raise ZeroDivisionError
  | S _ => Ok (a / flt_of_nat n)%F
  end.

(** *** The floats of the interpreter *)

Definition binary64_of_nat (n : nat) : PrimFloat.float :=
  PrimFloat.of_uint63 (Uint63.of_Z (Z.of_nat n)).

Definition binary64 : FloatOps := {|
  flt := PrimFloat.float;
  fadd := PrimFloat.add;
  fsub := PrimFloat.sub;
  fmul := PrimFloat.mul;
  fdiv := PrimFloat.div;
  flt_of_nat := binary64_of_nat;
  fltb := PrimFloat.ltb;
|}.

(** Times as they occur in transcripts, written exactly: 0, 0.01, 0.1,
    1/3, 0.5, the float below 1, 1, the float above 1, 1.5, 2, 2.34, 3, the
    float above 3, 7.25, 10, 59.99, 60, 127.68, 3600.5 and 86400. *)
Definition sample_times : list PrimFloat.float :=
  [0x0.0p+0; 0x1.47ae147ae147bp-7; 0x1.999999999999ap-4;
   0x1.5555555555555p-2; 0x1.0000000000000p-1; 0x1.fffffffffffffp-1;
   0x1.0000000000000p+0; 0x1.0000000000001p+0; 0x1.8000000000000p+0;
   0x1.0000000000000p+1; 0x1.2b851eb851eb8p+1; 0x1.8000000000000p+1;
   0x1.8000000000001p+1; 0x1.d000000000000p+2; 0x1.4000000000000p+3;
   0x1.dfeb851eb851fp+5; 0x1.e000000000000p+5; 0x1.feb851eb851ecp+6;
   0x1.c210000000000p+11; 0x1.5180000000000p+16]%float.

(** *** Exact arithmetic *)

Definition Qnat (n : nat) : Q := inject_Z (Z.of_nat n).

Definition rational : FloatOps := {|
  flt := Q;
  fadd := Qplus;
  fsub := Qminus;
  fmul := Qmult;
  fdiv := Qdiv;
  flt_of_nat := Qnat;
  fltb := λ a b, negb (Qle_bool b a);
|}.

(** ** Strings *)

Definition str := list N.

Definition py (s : string) : str := map N_of_ascii (list_ascii_of_string s).

Definition SPACE : N := 32%N.

(** The parts of the Unicode database the program reaches through
    [str.lower], [str.strip]/[str.split]/[\s] and [\w]. Case folding
    never produces or consumes the empty string. *)
Class Unicode := {
  isspace : N → bool;
  isword : N → bool;
  lower : str → str;
  lower_nil : ∀ s, lower s = [] ↔ s = [];
}.

Section Program.
Context `{Unicode} `{FloatOps}.

(** *** Builtins on [str] *)

Fixpoint dropwhile (p : N → bool) (s : str) : str :=
  match s with
  | [] => []
  | c :: s' => if p c then dropwhile p s' else s
  end.

(** [s.strip()] *)
Definition strip (s : str) : str :=
  rev (dropwhile isspace (rev (dropwhile isspace s))).

(** [s.split()]: the maximal runs of non-whitespace, in order. [cur]
    holds the run being read, last character first. *)
Fixpoint split_from (cur : str) (s : str) : list str :=
  match s with
  | [] => match cur with [] => [] | _ => [rev cur] end
  | c :: s' =>
      if isspace c
      then match cur with
           | [] => split_from [] s'
           | _ => rev cur :: split_from [] s'
           end
      else split_from (c :: cur) s'
  end.
Definition split (s : str) : list str := split_from [] s.

(** [' '.join(parts)] *)
Fixpoint join (parts : list str) : str :=
  match parts with
  | [] => []
  | [p] => p
  | p :: rest => p ++ SPACE :: join rest
  end.

Fixpoint startswith (s w : str) : bool :=
  match w, s with
  | [], _ => true
  | a :: w', b :: s' => (a =? b)%N && startswith s' w'
  | _ :: _, [] => false
  end.

(** [w in s] on strings: [w] occurs in [s] as a substring. *)
Fixpoint contains (s w : str) : bool :=
  startswith s w || match s with [] => false | _ :: s' => contains s' w end.

(** [re.sub(r'[^\w\s]', '', text)] *)
Definition remove_punctuation (text : str) : str :=
  List.filter (λ c, isword c || isspace c) text.

(** [re.sub(r'\s+', ' ', text)]: every maximal run of whitespace becomes
    one space. [in_run] tells that the previous character was whitespace. *)
Fixpoint collapse_from (in_run : bool) (text : str) : str :=
  match text with
  | [] => []
  | c :: text' =>
      if isspace c
      then if in_run then collapse_from true text'
           else SPACE :: collapse_from true text'
      else c :: collapse_from false text'
  end.
Definition collapse_whitespace (text : str) : str := collapse_from false text.

(** *** [normalize_text] *)

Definition normalize_text (text : str) : str :=
  let text := lower text in
  let text := remove_punctuation text in
  let text := collapse_whitespace text in
  strip text.

(** *** [word_similarity] *)

(** [set(w)] *)
Definition charset (w : str) : gset N := list_to_set w.

Definition word_similarity (w1 w2 : str) : result flt :=
  let w1 := lower w1 in
  let w2 := lower w2 in
  if decide (w1 = w2) then Ok 1%F
  else
    let chars1 := charset w1 in
    let chars2 := charset w2 in
    if decide (chars1 = ∅ ∨ chars2 = ∅) then Ok 0%F
    else truediv (flt_of_nat (size (chars1 ∩ chars2))) (size (chars1 ∪ chars2)).

(** *** Records *)

(** A transcript segment: [seg['text']], [seg['start']], [seg['end']]. *)
Record segment := Segment {
  seg_text : str;
  seg_start : flt;
  seg_end : flt;
}.

(** An entry of [words_timeline]. *)
Record token := Token {
  word : str;
  word_start : flt;
  word_end : flt;
}.

(** An entry of [results]; [None] is Python's [None]. *)
Record aligned := Aligned {
  line : str;
  start : option flt;
  end_ : option flt;
}.

(** *** [fallback_align], lines 44-59: the word timeline *)

Definition segment_tokens (seg : segment) : result (list token) :=
  let seg_words := split (normalize_text (seg_text seg)) in
  match seg_words with
  | [] => Ok []
  | _ =>
      let seg_duration := (seg_end seg - seg_start seg)%F in
      time_per_word ← truediv seg_duration (length seg_words);
      Ok (imap (λ i w,
                 let word_start := (seg_start seg + flt_of_nat i * time_per_word)%F in
                 let word_end := (word_start + time_per_word)%F in
                 Token w word_start word_end) seg_words)
  end.

Definition build_timeline (transcript_segments : list segment)
  : result (list token) :=
  foldM (λ words_timeline seg,
           toks ← segment_tokens seg; Ok (words_timeline ++ toks))
        [] transcript_segments.

(** *** Lines 65-78: the anchor *)

Definition first_few_lyrics (lyrics_lines : list str) : str :=
  join (map normalize_text
            (List.filter (λ l, negb (bool_decide (strip l = [])))
                         (take 3 lyrics_lines))).

Definition test_window (words_timeline : list token) (start_idx : nat)
  : result str :=
  ws ← forM (λ i, t ← subscript words_timeline (start_idx + i); Ok (word t))
            (seq 0 (min 15 (length words_timeline - start_idx)));
  Ok (join ws).

(** [sum(1 for word in first_few.split() if word in window)] *)
Definition overlap_score (first_few window : str) : nat :=
  length (List.filter (λ w, contains window w) (split first_few)).

Definition anchor_step (words_timeline : list token) (first_few : str)
    (best : nat * nat) (start_idx : nat) : result (nat * nat) :=
  let '(best_start_score, best_start_pos) := best in
  window ← test_window words_timeline start_idx;
  let score := overlap_score first_few window in
  if best_start_score <? score then Ok (score, start_idx)
  else Ok (best_start_score, best_start_pos).

Definition anchor_search (words_timeline : list token) (first_few : str)
  : result nat :=
  best ← foldM (anchor_step words_timeline first_few) (0, 0)
               (seq 0 (min 50 (length words_timeline)));
  Ok (snd best).

Definition find_anchor (words_timeline : list token) (lyrics_lines : list str)
  : result nat :=
  anchor_search words_timeline (first_few_lyrics lyrics_lines).

(** *** Lines 93-111: the search for one line *)

(** Lines 103-107. *)
Definition match_score (words_timeline : list token) (start_idx : nat)
    (lyric_words : list str) : result flt :=
  foldM (λ score iw,
           let '(i, lyric_word) := iw in
           if start_idx + i <? length words_timeline then
             t ← subscript words_timeline (start_idx + i);
             s ← word_similarity lyric_word (word t);
             Ok (score + s)%F
           else Ok score)
        0%F (imap pair lyric_words).

(** Lines 98-111; the [break] of line 100 ends the loop. *)
Fixpoint search (words_timeline : list token) (lyric_words : list str)
    (candidates : list nat) (best_score : flt) (best_start_idx : nat)
  : result (flt * nat) :=
  match candidates with
  | [] => Ok (best_score, best_start_idx)
  | start_idx :: rest =>
      if length words_timeline <? start_idx + length lyric_words
      then Ok (best_score, best_start_idx)
      else
        score ← match_score words_timeline start_idx lyric_words;
        if fltb best_score score
        then search words_timeline lyric_words rest score start_idx
        else search words_timeline lyric_words rest best_score best_start_idx
  end.

(** [range(current_pos, min(current_pos + 50, len(words_timeline)))] *)
Definition search_range (words_timeline : list token) (current_pos : nat)
  : list nat :=
  seq current_pos (min (current_pos + 50) (length words_timeline) - current_pos).

Definition best_match (words_timeline : list token) (current_pos : nat)
    (lyric_words : list str) : result (flt * nat) :=
  search words_timeline lyric_words (search_range words_timeline current_pos)
         0%F current_pos.

(** *** Lines 120-128: out of timeline *)

Definition gap_fill (results : list aligned) (l : str) : aligned :=
  match last results with
  | Some {| end_ := Some last_end |} =>
      Aligned l (Some last_end) (Some (last_end + 2)%F)
  | prev =>
      let last_time :=
        match prev with
        | Some {| start := Some t |} => t
        | _ => 0%F
        end in
      Aligned l (Some last_time) (Some (last_time + 2)%F)
  end.

(** *** Lines 82-128: one iteration of the loop over the lines *)

Record loop_state := LoopState {
  current_pos : nat;
  results : list aligned;
}.

Definition emit (st : loop_state) (r : aligned) : loop_state :=
  LoopState (current_pos st) (results st ++ [r]).

Definition align_line (words_timeline : list token) (st : loop_state)
    (line : str) : result loop_state :=
  let l := strip line in
  match l with
  | [] => Ok (emit st (Aligned [] None None))
  | _ =>
      let lyric_words := split (normalize_text l) in
      match lyric_words with
      | [] => Ok (emit st (Aligned l None None))
      | _ =>
          best ← best_match words_timeline (current_pos st) lyric_words;
          let best_start_idx := snd best in
          if best_start_idx <? length words_timeline then
            first ← subscript words_timeline best_start_idx;
            let start_time := word_start first in
            let end_idx := min (best_start_idx + length lyric_words - 1)
                               (length words_timeline - 1) in
            final ← subscript words_timeline end_idx;
            let end_time := word_end final in
            Ok (LoopState (end_idx + 1)
                  (results st ++ [Aligned l (Some start_time) (Some end_time)]))
          else Ok (emit st (gap_fill (results st) l))
      end
  end.

Definition align_lines (words_timeline : list token) (st : loop_state)
    (lyrics_lines : list str) : result loop_state :=
  foldM (align_line words_timeline) st lyrics_lines.

(** *** [fallback_align] *)

Definition fallback_align (transcript_segments : list segment)
    (lyrics_lines : list str) : result (list aligned) :=
  words_timeline ← build_timeline transcript_segments;
  match words_timeline with
  | [] => Ok (map (λ l, Aligned l None None) lyrics_lines)
  | _ =>
      best_start_pos ← find_anchor words_timeline lyrics_lines;
      st ← align_lines words_timeline (LoopState best_start_pos []) lyrics_lines;
      Ok (results st)
  end.

(** *** Notions used to state the properties *)

(** The words a lyric line is matched by (lines 83 and 88). *)
Definition lyric_words_of (line : str) : list str :=
  split (normalize_text (strip line)).

(** Offsets [j] of [[pointer, min(pointer+50, |timeline|))] at which a line
    of [m] words fits. *)
Definition candidates (words_timeline : list token) (pointer m : nat)
  : list nat :=
  List.filter (λ j, j + m <=? length words_timeline)
              (search_range words_timeline pointer).

(** The sum over [i < m] of the similarity of [W[i]] and
    [timeline[j+i].word], added up from the left. *)
Definition spec_score (words_timeline : list token) (j : nat) (W : list str)
  : result flt :=
  sims ← forM (λ i, w ← subscript W i;
                    t ← subscript words_timeline (j + i);
                    word_similarity w (word t))
              (seq 0 (length W));
  Ok (foldl fadd 0%F sims).

(** The string joining up to 15 timeline words from index [i] on. *)
Definition window_at (words_timeline : list token) (i : nat) : str :=
  join (map word (take 15 (drop i words_timeline))).

(** The reference string as the specification words it: the first three
    non-blank lines, normalized and joined. *)
Definition spec_first_few_lyrics (lyrics_lines : list str) : str :=
  join (map normalize_text
            (take 3 (List.filter (λ l, negb (bool_decide (strip l = [])))
                                 lyrics_lines))).

(** Each segment ends no earlier than it starts. *)
Definition well_formed (segs : list segment) : Prop :=
  Forall (λ seg, (seg_start seg <= seg_end seg)%F) segs.

(** Each segment starts no earlier than the one before it ends. *)
Definition chronological (segs : list segment) : Prop :=
  ∀ i a b, segs !! i = Some a → segs !! S i = Some b →
           (seg_end a <= seg_start b)%F.

(** Start times and end times both increase along the segments. *)
Definition increasing_times (segs : list segment) : Prop :=
  ∀ i a b, segs !! i = Some a → segs !! S i = Some b →
           (seg_start a < seg_start b)%F ∧ (seg_end a < seg_end b)%F.

(** Segments in time order from [lo] on (the two conditions above, read
    along the list). *)
Fixpoint segments_from (lo : flt) (segs : list segment) : Prop :=
  match segs with
  | [] => True
  | seg :: segs' =>
      (lo <= seg_start seg)%F ∧ (seg_start seg <= seg_end seg)%F
      ∧ segments_from (seg_end seg) segs'
  end.

(** A run of tokens in time order between [lo] and [hi]. *)
Fixpoint in_order (lo hi : flt) (tl : list token) : Prop :=
  match tl with
  | [] => (lo <= hi)%F
  | t :: tl' =>
      (lo <= word_start t)%F ∧ (word_start t <= word_end t)%F
      ∧ in_order (word_end t) hi tl'
  end.

(** The states the loop can be in: while no entry has been emitted the
    pointer is inside the timeline, and no entry has a start time without
    an end time. *)
Definition loop_invariant (tl : list token) (st : loop_state) : Prop :=
  (results st = [] → current_pos st < length tl)
  ∧ Forall (λ r, end_ r = None → start r = None) (results st).

(** A result carries either both times or none, in order. *)
Definition timing_ok (r : aligned) : Prop :=
  match start r, end_ r with
  | None, None => True
  | Some s, Some e => (s <= e)%F
  | _, _ => False
  end.

End Program.

(** The ASCII rows of the tables; code points from 128 on are left
    unclassified and unchanged. *)
Module Ascii7.
Definition isspace (c : N) : bool :=
  ((9 <=? c) && (c <=? 13) || (28 <=? c) && (c <=? 32))%N.
Definition isalnum (c : N) : bool :=
  ((48 <=? c) && (c <=? 57) || (65 <=? c) && (c <=? 90)
   || (97 <=? c) && (c <=? 122))%N.
Definition isword (c : N) : bool := isalnum c || (c =? 95)%N.
Definition lower_char (c : N) : N :=
  if ((65 <=? c) && (c <=? 90))%N then (c + 32)%N else c.
Definition lower (s : str) : str := map lower_char s.
End Ascii7.

#[global] Instance ascii_unicode : Unicode := {|
  isspace := Ascii7.isspace;
  isword := Ascii7.isword;
  lower := Ascii7.lower;
  lower_nil := ltac:(intros []; cbn; split; congruence);
|}.

(** *** Sample inputs (ASCII), over any floats *)

Section Samples.
Context `{FloatOps}.

Definition hi_segments : list segment := [Segment (py "hi") 0 2].

Definition hi_timeline : list token := [Token (py "hi") 0 2].

Definition hi_yo_segments : list segment :=
  [Segment (py "hi") 0 2; Segment (py "yo") 2 (flt_of_nat 4)].

Definition hi_yo_timeline : list token :=
  [Token (py "hi") 0 2; Token (py "yo") 2 (flt_of_nat 4)].

(** Two segments with increasing start and end times that overlap. *)
Definition overlapping_segments : list segment :=
  [Segment (py "a a a a b") 0 (flt_of_nat 10);
   Segment (py "c d d d d") 1 (flt_of_nat 11)].

(** Fifteen filler words, then the word of the lyrics. *)
Definition x_hello_segments : list segment :=
  [Segment (py "x x x x x x x x x x x x x x x hello") 0 (flt_of_nat 16)].

(** Three blank lines, then the first line with text. *)
Definition blank3_hello : list str := [[]; []; []; py "hello"].

(** A text with capitals, punctuation and runs of whitespace. *)
Definition hello_text : str := py "  Hello,   World!  ".

(** Four lyric lines, the second blank. *)
Definition four_lines : list str :=
  [py "Hello, World"; []; py "it's me"; py "left out"].

(** A segment and a lyric line with the same words. *)
Definition hello_segment : segment := Segment (py "Hello world") 0 2.
Definition hello_line : str := py " hello, WORLD! ".

(** An invocation with the lyrics ["hi"], and a recognizer that hears
    ["hi"] whatever the audio. *)
Definition hi_argv : list str :=
  [py "align_whisper.py"; py "song.mp3"; py "hi"].
Definition hears_hi (audio_path : str) : list segment := hi_segments.

(** A segment of four words and a line whose two best offsets score
    11/12 each in exact arithmetic, and differently once rounded. *)
Definition near_tie_segments : list segment :=
  [Segment (py "ab cd e cd") 0 (flt_of_nat 4)].
Definition near_tie_line : str := py "bcd bc ace".

(** A segment of six words over one second. *)
Definition six_words_segment : segment :=
  Segment (py "w w w w w w") 0 1.

(** A segment of nine words over one second. *)
Definition nine_words_segments : list segment :=
  [Segment (py "a b c d e f g h i") 0 1].

End Samples.

(** ** [main] of [align_whisper.py], lines 132-181

    The speech recognizer ([whisper.load_model] and [model.transcribe]) is
    taken as a function from the audio path to the segments. What is kept
    of the process is its exit status and the list it prints on the
    standard output; the messages on the error stream are left out. *)

Section Driver.
Context `{Unicode} `{FloatOps}.

Definition NEWLINE : N := 10%N.

(** [s.split(sep)] for a separator of one character: the pieces between
    the separators, empty ones kept. [cur] holds the piece being read, last
    character first. *)
Fixpoint split_on_from (sep : N) (cur : str) (s : str) : list str :=
  match s with
  | [] => [rev cur]
  | c :: s' =>
      if (c =? sep)%N then rev cur :: split_on_from sep [] s'
      else split_on_from sep (c :: cur) s'
  end.
Definition split_on (sep : N) (s : str) : list str := split_on_from sep [] s.

(** Lines 173-174: the segments with text, as entries. *)
Definition pure_transcript (transcript_segments : list segment)
  : list aligned :=
  map (λ seg, Aligned (strip (seg_text seg))
                      (Some (seg_start seg)) (Some (seg_end seg)))
      (List.filter (λ seg, negb (bool_decide (strip (seg_text seg) = [])))
                   transcript_segments).

(** How the process ends: [sys.exit(code)] after printing [stdout] (if
    anything), or an exception that nothing catches. *)
Inductive outcome :=
  | Exit (code : nat) (stdout : option (list aligned))
  | Uncaught (e : exn).

(** Lines 146-151: the lyric lines. *)
Definition lyrics_lines_of (lyrics_text : str) : list str :=
  let lyrics_lines := split_on NEWLINE lyrics_text in
  match strip lyrics_text with
  | [] => []
  | _ => lyrics_lines
  end.

(** Line 172: no lyrics were given. *)
Definition no_lyrics (lyrics_lines : list str) : bool :=
  match lyrics_lines with
  | [] => true
  | _ => forallb (λ l, bool_decide (strip l = [])) lyrics_lines
  end.

Definition main (transcribe : str → list segment) (argv : list str)
  : outcome :=
  if length argv <? 3 then Exit 2 None
  else
    match subscript argv 1, subscript argv 2 with
    | Ok audio_path, Ok lyrics_text =>
        let lyrics_lines := lyrics_lines_of lyrics_text in
        let transcript_segments := transcribe audio_path in
        if no_lyrics lyrics_lines
        then Exit 0 (Some (pure_transcript transcript_segments))
        else
          match fallback_align transcript_segments lyrics_lines with
          | Ok mapped => Exit 0 (Some mapped)
          | Raise e => Uncaught e
          end
    | Raise e, _ | _, Raise e => Uncaught e
    end.

End Driver.

(** ** [main] of [faster_whisper_cli.py], lines 35-60

    The conversion of the recognizer's segments into the dictionary that
    is written out. Argument parsing, the recognizer and the output file
    are left out. *)

Module Cli.
Section Conversion.
Context `{FloatOps}.

(** A word and a segment as the recognizer yields them; [seg_words] is
    [None] when no word timestamps came with the segment. *)
Record fw_word := FwWord {
  fw_word_text : str;
  fw_word_start : flt;
  fw_word_end : flt;
}.

Record fw_segment := FwSegment {
  fw_start : flt;
  fw_end : flt;
  fw_text : str;
  fw_words : option (list fw_word);
}.

(** The dictionaries of the output. *)
Record word_dict := WordDict {
  wd_word : str;
  wd_start : flt;
  wd_end : flt;
}.

Record seg_dict := SegDict {
  sd_id : nat;
  sd_start : flt;
  sd_end : flt;
  sd_text : str;
  sd_words : list word_dict;
}.

Record transcription := Transcription {
  tr_text : str;
  tr_segments : list seg_dict;
  tr_language : str;
}.

(** Lines 51-57. *)
Definition convert_words (words : option (list fw_word)) : list word_dict :=
  match words with
  | Some (w :: ws) =>
      map (λ word, WordDict (fw_word_text word) (fw_word_start word)
                            (fw_word_end word)) (w :: ws)
  | _ => []
  end.

(** Lines 43-60: one iteration of the loop over the segments. *)
Definition convert_step (result : transcription) (segment : fw_segment)
  : transcription :=
  let seg_dict :=
    SegDict (length (tr_segments result)) (fw_start segment) (fw_end segment)
            (fw_text segment) (convert_words (fw_words segment)) in
  Transcription (tr_text result ++ fw_text segment)
                (tr_segments result ++ [seg_dict])
                (tr_language result).

(** Lines 36-60. *)
Definition convert (segments : list fw_segment) (language : str)
  : transcription :=
  foldl convert_step (Transcription [] [] language) segments.

End Conversion.
End Cli.

(** *** Further notions used to state properties *)

Section Notions.
Context `{Unicode} `{FloatOps}.

(** The trailing half of [strip]. *)
Definition rstrip (s : str) : str := rev (dropwhile isspace (rev s)).

(** A word as [split] yields it: not empty, free of whitespace. *)
Definition clean_word (w : str) : Prop :=
  w ≠ [] ∧ Forall (λ c, isspace c = false) w.

(** The words of a segment's text. *)
Definition segment_words (seg : segment) : list str :=
  split (normalize_text (seg_text seg)).

(** The tokens of a segment, lines 50-59 without the division test. *)
Definition token_list (seg : segment) : list token :=
  let part := ((seg_end seg - seg_start seg)
               / flt_of_nat (length (segment_words seg)))%F in
  imap (λ i w, Token w (seg_start seg + flt_of_nat i * part)%F
                       (seg_start seg + flt_of_nat i * part + part)%F)
       (segment_words seg).

(** In a timeline, a token starts no later than any token at the same or
    a later index ends. *)
Definition starts_before_ends (tl : list token) : Prop :=
  ∀ i j a b, i ≤ j → tl !! i = Some a → tl !! j = Some b →
             (word_start a <= word_end b)%F.

End Notions.


#[local] Arguments Nat.ltb : simpl never.
#[local] Arguments Nat.leb : simpl never.
#[local] Arguments Nat.min : simpl never.
#[local] Arguments Nat.sub : simpl never.

(** ** The error monad *)

Lemma bind_Ok {A B} (m : result A) (f : A → result B) b :
  (m ≫= f) = Ok b ↔ ∃ a, m = Ok a ∧ f a = Ok b.
Proof.
  destruct m as [a|e]; cbn; split.
  - eauto.
  - intros (a' & Ha & Hf). by inversion Ha.
  - discriminate.
  - intros (a' & Ha & _). discriminate.
Qed.

Lemma bind_ret_r {A} (m : result A) : (m ≫= λ a, Ok a) = m.
Proof. by destruct m. Qed.

Lemma foldM_app {A B} (body : A → B → result A) acc xs ys :
  foldM body acc (xs ++ ys) = (acc' ← foldM body acc xs; foldM body acc' ys).
Proof.
  revert acc. induction xs as [|x xs IH]; intros acc; cbn; [done|].
  destruct (body acc x) as [acc'|e]; cbn; [apply IH | done].
Qed.

(** A loop whose body keeps an invariant and never raises runs to its end. *)
Lemma foldM_invariant {A B} (P : A → Prop) (body : A → B → result A) xs acc :
  (∀ a x, P a → x ∈ xs → ∃ a', body a x = Ok a' ∧ P a') →
  P acc → ∃ acc', foldM body acc xs = Ok acc' ∧ P acc'.
Proof.
  revert acc. induction xs as [|x xs IH]; intros acc Hbody Hacc; cbn.
  - eauto.
  - destruct (Hbody acc x Hacc) as (a' & -> & Ha'); [left|]. cbn.
    apply IH; [|done]. intros a y Ha Hy. apply Hbody; [done | by right].
Qed.

Lemma forM_app {A B} (f : A → result B) xs ys :
  forM f (xs ++ ys) = (a ← forM f xs; b ← forM f ys; Ok (a ++ b)).
Proof.
  induction xs as [|x xs IH]; cbn.
  - by destruct (forM f ys).
  - destruct (f x) as [y|e]; cbn; [|done]. rewrite IH.
    destruct (forM f xs) as [a|e]; cbn; [|done].
    by destruct (forM f ys).
Qed.

Lemma forM_ext {A B} (f g : A → result B) xs :
  (∀ x, x ∈ xs → f x = g x) → forM f xs = forM g xs.
Proof.
  induction xs as [|x xs IH]; intros Hfg; cbn; [done|].
  rewrite (Hfg x) by left. rewrite IH; [done|].
  intros y Hy. apply Hfg. by right.
Qed.

Lemma subscript_Ok {A} (xs : list A) i x :
  subscript xs i = Ok x ↔ xs !! i = Some x.
Proof. unfold subscript. destruct (xs !! i); split; congruence. Qed.

Lemma subscript_snoc {A} (xs : list A) x : subscript (xs ++ [x]) (length xs) = Ok x.
Proof. apply subscript_Ok. by apply list_lookup_middle. Qed.

Lemma subscript_lt {A} (xs : list A) i :
  i < length xs → ∃ x, subscript xs i = Ok x ∧ xs !! i = Some x.
Proof.
  intros Hi. destruct (lookup_lt_is_Some_2 xs i Hi) as [x Hx].
  exists x. by rewrite subscript_Ok.
Qed.

(** ** The order of floats *)

Lemma truediv_pos `{FloatOps} (a : flt) n :
  0 < n → truediv a n = Ok (a / flt_of_nat n)%F.
Proof. destruct n; [lia | done]. Qed.

Section FloatOrder.
Context {O : FloatOps}.

Lemma flt_le_refl `{!FloatOrder} a : (a <= a)%F.
Proof.
  unfold flt_le. destruct (fltb a a) eqn:E; [|done].
  by apply flt_lt_irrefl in E.
Qed.

Lemma flt_lt_le `{!FloatOrder} a b : (a < b)%F → (a <= b)%F.
Proof.
  intros Hab. unfold flt_le. destruct (fltb b a) eqn:E; [|done].
  exfalso. apply (flt_lt_irrefl a). by apply (flt_lt_trans a b a).
Qed.

Lemma flt_le_lt_trans `{!FloatOrder} a b c :
  (a <= b)%F → (b < c)%F → (a < c)%F.
Proof.
  intros Hab Hbc. unfold flt_lt. destruct (fltb a c) eqn:E; [done|].
  exfalso. assert (c <= b)%F as Hcb by (by apply (flt_le_trans c a b)).
  unfold flt_le, flt_lt in *. congruence.
Qed.

Lemma flt_lt_le_trans `{!FloatOrder} a b c :
  (a < b)%F → (b <= c)%F → (a < c)%F.
Proof.
  intros Hab Hbc. unfold flt_lt. destruct (fltb a c) eqn:E; [done|].
  exfalso. assert (b <= a)%F as Hba by (by apply (flt_le_trans b c a)).
  unfold flt_le, flt_lt in *. congruence.
Qed.

Lemma flt_lt_not_le a b : (a < b)%F → ¬ (b <= a)%F.
Proof. unfold flt_lt, flt_le. congruence. Qed.

Lemma flt_le_or_lt a b : (a <= b)%F ∨ (b < a)%F.
Proof. unfold flt_lt, flt_le. destruct (fltb b a); auto. Qed.

Lemma flt_eq_refl `{!FloatOrder} a : (a == a)%F.
Proof. split; apply flt_le_refl. Qed.

Lemma flt_eq_sym a b : (a == b)%F → (b == a)%F.
Proof. intros [? ?]. by split. Qed.

Lemma flt_eq_trans `{!FloatOrder} a b c :
  (a == b)%F → (b == c)%F → (a == c)%F.
Proof. intros [? ?] [? ?]. split; by eapply flt_le_trans. Qed.

Lemma flt_of_nat_le `{!FloatLaws} n m :
  n ≤ m → (flt_of_nat n <= flt_of_nat m)%F.
Proof.
  intros Hnm. destruct (decide (n = m)) as [->|Hne]; [apply flt_le_refl|].
  apply flt_lt_le, flt_of_nat_lt. lia.
Qed.

Lemma flt_zero_ne_one `{!FloatLaws} : ¬ (0 == 1)%F.
Proof.
  intros [_ Hle]. apply (flt_lt_not_le 0%F 1%F); [|done].
  apply flt_of_nat_lt. lia.
Qed.

End FloatOrder.

Section Theory.
Context {U : Unicode} {O : FloatOps}.

(** ** [word_similarity] *)

Lemma charset_empty w : charset w = ∅ ↔ w = [].
Proof.
  unfold charset. split; [|intros ->; apply list_to_set_nil].
  destruct w as [|c w]; [done|]. intros E.
  assert (c ∈ (∅ : gset N)) as Hc by (rewrite <- E; set_solver).
  set_solver.
Qed.

Lemma charset_lower_empty w : charset (lower w) = ∅ ↔ w = [].
Proof. rewrite charset_empty. apply lower_nil. Qed.

(** On words that differ after case folding and are both non-empty, the
    division of line 38 is reached and its divisor is positive. *)
Lemma word_similarity_jaccard w1 w2 :
  lower w1 ≠ lower w2 → w1 ≠ [] → w2 ≠ [] →
  0 < size (charset (lower w1) ∪ charset (lower w2))
  ∧ word_similarity w1 w2
    = Ok (flt_of_nat (size (charset (lower w1) ∩ charset (lower w2)))
          / flt_of_nat (size (charset (lower w1) ∪ charset (lower w2))))%F.
Proof.
  intros Hne H1 H2.
  assert (0 < size (charset (lower w1) ∪ charset (lower w2))) as Hpos.
  { apply Nat.neq_0_lt_0. rewrite size_non_empty_iff.
    intros E. apply H1, charset_lower_empty.
    apply leibniz_equiv. set_solver. }
  split; [done|]. unfold word_similarity.
  destruct (decide (lower w1 = lower w2)); [done|].
  destruct (decide _) as [[E|E]|_].
  - by apply charset_lower_empty in E.
  - by apply charset_lower_empty in E.
  - by apply truediv_pos.
Qed.

Lemma word_similarity_equal w1 w2 :
  lower w1 = lower w2 → word_similarity w1 w2 = Ok 1%F.
Proof. intros E. unfold word_similarity. by rewrite decide_True. Qed.

Lemma word_similarity_one_empty w1 w2 :
  lower w1 ≠ lower w2 → w1 = [] ∨ w2 = [] → word_similarity w1 w2 = Ok 0%F.
Proof.
  intros Hne Hemp. unfold word_similarity.
  rewrite decide_False by done. rewrite decide_True; [done|].
  destruct Hemp as [->| ->]; [left|right]; by apply charset_lower_empty.
Qed.

Lemma word_similarity_sym w1 w2 : word_similarity w1 w2 = word_similarity w2 w1.
Proof.
  unfold word_similarity.
  destruct (decide (lower w1 = lower w2)) as [E|E].
  - by rewrite decide_True.
  - rewrite (decide_False (P := lower w2 = lower w1)) by congruence.
    rewrite (comm_L (∩) (charset (lower w2))), (comm_L (∪) (charset (lower w2))).
    destruct (decide (charset (lower w1) = ∅ ∨ _)) as [D|D].
    + rewrite decide_True; [done | tauto].
    + rewrite decide_False; [done | tauto].
Qed.

Lemma size_intersection_le_union (X Y : gset N) : size (X ∩ Y) ≤ size (X ∪ Y).
Proof.
  apply subseteq_size. intros c. rewrite elem_of_intersection, elem_of_union.
  intros [Hc _]. by left.
Qed.

(** The score is always produced. *)
Lemma word_similarity_total w1 w2 : ∃ q, word_similarity w1 w2 = Ok q.
Proof.
  destruct (decide (lower w1 = lower w2)) as [E|E].
  { exists 1%F. by apply word_similarity_equal. }
  destruct (decide (w1 = [] ∨ w2 = [])) as [D|D].
  { exists 0%F. by apply word_similarity_one_empty. }
  destruct (word_similarity_jaccard w1 w2) as (Hpos & Hws);
    [done | by intros ->; apply D; left | by intros ->; apply D; right |].
  rewrite Hws. eauto.
Qed.

(** It lies in the unit interval. *)
Lemma word_similarity_range `{!FloatLaws} w1 w2 :
  ∃ q, word_similarity w1 w2 = Ok q ∧ (0 <= q <= 1)%F.
Proof.
  destruct (decide (lower w1 = lower w2)) as [E|E].
  { exists 1%F. split; [by apply word_similarity_equal|].
    split; [apply flt_of_nat_le; lia | apply flt_le_refl]. }
  destruct (decide (w1 = [] ∨ w2 = [])) as [D|D].
  { exists 0%F. split; [by apply word_similarity_one_empty|].
    split; [apply flt_le_refl | apply flt_of_nat_le; lia]. }
  destruct (word_similarity_jaccard w1 w2) as (Hpos & Hws);
    [done | by intros ->; apply D; left | by intros ->; apply D; right |].
  rewrite Hws. eexists. split; [done|]. apply ratio_range; [|done].
  apply size_intersection_le_union.
Qed.

(** ** Scoring one offset *)

Lemma match_score_snoc tl j W w :
  match_score tl j (W ++ [w])
  = (score ← match_score tl j W;
     if j + length W <? length tl then
       t ← subscript tl (j + length W);
       s ← word_similarity w (word t);
       Ok (score + s)%F
     else Ok score).
Proof.
  unfold match_score. rewrite imap_app, foldM_app. cbn -[Nat.ltb].
  rewrite Nat.add_0_r.
  destruct (foldM _ _ (imap pair W)) as [score|e]; cbn -[Nat.ltb]; [|done].
  apply bind_ret_r.
Qed.

Lemma spec_score_snoc tl j W w :
  spec_score tl j (W ++ [w])
  = (score ← spec_score tl j W;
     t ← subscript tl (j + length W);
     s ← word_similarity w (word t);
     Ok (score + s)%F).
Proof.
  unfold spec_score. rewrite length_app, Nat.add_1_r, seq_S, forM_app. cbn.
  rewrite (forM_ext _ (λ i, w0 ← subscript W i;
                            t ← subscript tl (j + i);
                            word_similarity w0 (word t)) (seq 0 (length W))).
  2:{ intros i Hi. apply elem_of_seq in Hi. unfold subscript.
      rewrite lookup_app_l by lia. done. }
  destruct (forM _ (seq 0 (length W))) as [sims|e]; cbn; [|done].
  rewrite subscript_snoc. cbn.
  destruct (subscript tl (j + length W)) as [t|e]; cbn; [|done].
  destruct (word_similarity w (word t)) as [q|e]; cbn; [|done].
  by rewrite foldl_app.
Qed.

(** Lines 103-107 never raise. *)
Lemma match_score_total tl j W : ∃ q, match_score tl j W = Ok q.
Proof.
  induction W as [|w W IH] using rev_ind.
  - by exists 0%F.
  - destruct IH as (q & Hq). rewrite match_score_snoc, Hq. cbn.
    destruct (j + length W <? length tl) eqn:E; [|eauto].
    apply Nat.ltb_lt in E.
    destruct (subscript_lt tl _ E) as (t & -> & _). cbn.
    destruct (word_similarity_total w (word t)) as (s & ->). cbn. eauto.
Qed.

(** Where the line fits, the loop computes the sum of the specification. *)
Lemma match_score_spec tl j W :
  j + length W ≤ length tl → match_score tl j W = spec_score tl j W.
Proof.
  induction W as [|w W IH] using rev_ind; intros Hfit; [done|].
  rewrite length_app in Hfit. cbn in Hfit.
  rewrite match_score_snoc, spec_score_snoc, IH by lia.
  destruct (spec_score tl j W) as [q|e]; cbn; [|done].
  by rewrite (proj2 (Nat.ltb_lt _ _)) by lia.
Qed.

(** ** The search loop *)

Lemma elem_of_search_range tl p j :
  j ∈ search_range tl p ↔ p ≤ j < min (p + 50) (length tl).
Proof. unfold search_range. rewrite elem_of_seq. lia. Qed.

Lemma elem_of_candidates tl p m j :
  j ∈ candidates tl p m
  ↔ p ≤ j < min (p + 50) (length tl) ∧ j + m ≤ length tl.
Proof.
  unfold candidates. rewrite list_elem_of_In, filter_In, <- list_elem_of_In.
  rewrite elem_of_search_range, Nat.leb_le. done.
Qed.

(** The loop of lines 98-111 never raises, and what it returns is the
    index it was entered with or one of the offsets it scored. *)
Lemma search_result tl W a n bs bi :
  ∃ bs' bi',
    search tl W (seq a n) bs bi = Ok (bs', bi')
    ∧ (bi' = bi ∨ (a ≤ bi' < a + n ∧ bi' + length W ≤ length tl)).
Proof.
  revert a bs bi. induction n as [|n IH]; intros a bs bi; cbn.
  { exists bs, bi. split; [done | by left]. }
  destruct (length tl <? a + length W) eqn:Hbreak.
  { exists bs, bi. split; [done | by left]. }
  apply Nat.ltb_ge in Hbreak.
  destruct (match_score_total tl a W) as (qa & Hqa). rewrite Hqa. cbn.
  destruct (fltb bs qa).
  - destruct (IH (S a) qa a) as (bs' & bi' & -> & Hcases).
    exists bs', bi'. split; [done|]. right.
    destruct Hcases as [->|?]; lia.
  - destruct (IH (S a) bs bi) as (bs' & bi' & -> & Hcases).
    exists bs', bi'. split; [done|].
    destruct Hcases as [->|?]; [by left | right; lia].
Qed.

Lemma best_match_total tl p W :
  ∃ best j,
    best_match tl p W = Ok (best, j)
    ∧ p ≤ j ∧ j < p + 50
    ∧ (p < length tl → j < length tl) ∧ (length tl ≤ p → j = p).
Proof.
  unfold best_match, search_range.
  destruct (search_result tl W p (min (p + 50) (length tl) - p) 0%F p)
    as (best & j & -> & Hcases).
  exists best, j. split; [done|]. destruct Hcases as [->|?]; lia.
Qed.

Lemma best_match_bounds tl p W best j :
  best_match tl p W = Ok (best, j) →
  p ≤ j ∧ (p < length tl → j < length tl) ∧ (length tl ≤ p → j = p).
Proof.
  intros Hbm.
  destruct (best_match_total tl p W) as (best' & j' & Hbm' & Hbounds).
  rewrite Hbm in Hbm'. injection Hbm' as <- <-. tauto.
Qed.

(** The loop of lines 98-111 over [range(a, a+n)], entered with a running
    best [(bs, bi)]: either nothing beats [bs], or the result is the first
    offset that reaches the largest score. *)
Lemma search_seq `{!FloatOrder} tl W a n bs bi :
  ∃ bs' bi',
    search tl W (seq a n) bs bi = Ok (bs', bi')
    ∧ ((bs' = bs ∧ bi' = bi
        ∧ ∀ k, a ≤ k < a + n → k + length W ≤ length tl →
               ∃ q, match_score tl k W = Ok q ∧ (q <= bs)%F)
       ∨ (a ≤ bi' < a + n ∧ bi' + length W ≤ length tl
          ∧ match_score tl bi' W = Ok bs' ∧ (bs < bs')%F
          ∧ ∀ k, a ≤ k < a + n → k + length W ≤ length tl →
                 ∃ q, match_score tl k W = Ok q ∧ (q <= bs')%F
                      ∧ (k < bi' → (q < bs')%F))).
Proof.
  revert a bs bi. induction n as [|n IH]; intros a bs bi; cbn.
  { exists bs, bi. split; [done|]. left. repeat split. intros; lia. }
  destruct (length tl <? a + length W) eqn:Hbreak.
  { apply Nat.ltb_lt in Hbreak. exists bs, bi. split; [done|]. left.
    repeat split. intros; lia. }
  apply Nat.ltb_ge in Hbreak.
  destruct (match_score_total tl a W) as (qa & Hqa). rewrite Hqa. cbn.
  destruct (fltb bs qa) eqn:Hgt.
  - assert (bs < qa)%F as Hlt0 by exact Hgt.
    destruct (IH (S a) qa a) as (bs' & bi' & -> & Hcases).
    exists bs', bi'. split; [done|]. right.
    destruct Hcases as [(E1 & E2 & Hall)|(Hrange & Hfit' & Hscore & Hlt & Hall)].
    + subst bs' bi'. split; [lia|]. split; [done|]. split; [done|].
      split; [done|].
      intros k Hk Hfit. destruct (decide (k = a)) as [->|Hne].
      * exists qa. split; [done|]. split; [apply flt_le_refl | lia].
      * destruct (Hall k) as (q & Hq & Hle); [lia | done |].
        exists q. split; [done|]. split; [done | lia].
    + split; [lia|]. split; [done|]. split; [done|].
      split; [by eapply flt_lt_trans|].
      intros k Hk Hfit. destruct (decide (k = a)) as [->|Hne].
      * exists qa. split; [done|]. split; [by apply flt_lt_le | done].
      * apply Hall; [lia | done].
  - assert (qa <= bs)%F as Hle0 by exact Hgt.
    destruct (IH (S a) bs bi) as (bs' & bi' & -> & Hcases).
    exists bs', bi'. split; [done|].
    destruct Hcases as [(E1 & E2 & Hall)|(Hrange & Hfit' & Hscore & Hlt & Hall)].
    + left. subst bs' bi'. split; [done|]. split; [done|].
      intros k Hk Hfit. destruct (decide (k = a)) as [->|Hne].
      * exists qa. done.
      * apply Hall; [lia | done].
    + right. split; [lia|]. split; [done|]. split; [done|]. split; [done|].
      intros k Hk Hfit. destruct (decide (k = a)) as [->|Hne].
      * assert (qa < bs')%F by (by eapply flt_le_lt_trans).
        exists qa. split; [done|]. split; [by apply flt_lt_le | done].
      * apply Hall; [lia | done].
Qed.

(** The search of one line: it never raises; the offset it returns is the
    pointer when no candidate scores above zero, and otherwise the first
    candidate of maximal score. *)
Lemma best_match_spec `{!FloatOrder} tl p W :
  ∃ best j,
    best_match tl p W = Ok (best, j)
    ∧ ((best = 0%F ∧ j = p
        ∧ ∀ k, k ∈ candidates tl p (length W) →
               ∃ q, match_score tl k W = Ok q ∧ (q <= 0)%F)
       ∨ (j ∈ candidates tl p (length W)
          ∧ match_score tl j W = Ok best ∧ (0 < best)%F
          ∧ ∀ k, k ∈ candidates tl p (length W) →
                 ∃ q, match_score tl k W = Ok q ∧ (q <= best)%F
                      ∧ (k < j → (q < best)%F))).
Proof.
  unfold best_match, search_range.
  destruct (search_seq tl W p (min (p + 50) (length tl) - p) 0%F p)
    as (best & j & -> & Hcases).
  exists best, j. split; [done|].
  destruct Hcases as [(-> & -> & Hall)|(Hrange & Hfit & Hscore & Hlt & Hall)].
  - left. repeat split. intros k Hk. apply elem_of_candidates in Hk.
    apply Hall; lia.
  - right. repeat split; try done.
    + apply elem_of_candidates. lia.
    + intros k Hk. apply elem_of_candidates in Hk. apply Hall; lia.
Qed.

(** ** One iteration of the loop over the lines *)

Lemma lyric_words_blank raw : strip raw = [] → lyric_words_of raw = [].
Proof.
  intros E. unfold lyric_words_of, normalize_text. rewrite E.
  by rewrite (proj2 (lower_nil [])).
Qed.

(** The three ways an iteration ends: no timing for a line without words,
    a match inside the timeline, or a synthesized time once the pointer has
    left the timeline. It never raises. *)
Lemma align_line_cases tl st raw :
  let W := lyric_words_of raw in
  ∃ st', align_line tl st raw = Ok st'
    ∧ ((W = [] ∧ st' = emit st (Aligned (strip raw) None None))
       ∨ (W ≠ [] ∧ current_pos st < length tl
          ∧ ∃ best j first final,
              let end_idx := min (j + length W - 1) (length tl - 1) in
              best_match tl (current_pos st) W = Ok (best, j)
              ∧ tl !! j = Some first ∧ tl !! end_idx = Some final
              ∧ st' = LoopState (end_idx + 1)
                        (results st ++ [Aligned (strip raw)
                                          (Some (word_start first))
                                          (Some (word_end final))]))
       ∨ (W ≠ [] ∧ length tl ≤ current_pos st
          ∧ st' = emit st (gap_fill (results st) (strip raw)))).
Proof.
  intros W. unfold align_line. fold (lyric_words_of raw). fold W.
  destruct (strip raw) as [|c l] eqn:El.
  { eexists. split; [done|]. left. split; [|done].
    by apply lyric_words_blank. }
  destruct W as [|w W'] eqn:EW.
  { eexists. split; [done|]. by left. }
  rewrite <- EW.
  destruct (best_match_total tl (current_pos st) W) as (best & j & Hbm & _).
  rewrite Hbm. cbn.
  destruct (best_match_bounds _ _ _ _ _ Hbm) as (Hpj & Hin & Hout).
  assert (W ≠ []) as HW by (rewrite EW; done).
  assert (0 < length W) as Hm by (rewrite EW; cbn; lia).
  destruct (decide (current_pos st < length tl)) as [Hp|Hp].
  - specialize (Hin Hp). rewrite (proj2 (Nat.ltb_lt _ _) Hin).
    destruct (subscript_lt tl j Hin) as (first & -> & Hfirst). cbn.
    destruct (subscript_lt tl (min (j + length W - 1) (length tl - 1)))
      as (final & -> & Hfinal); [lia|]. cbn.
    eexists. split; [done|]. right. left. repeat split; try done.
    exists best, j, first, final. done.
  - rewrite Hout by lia. rewrite (proj2 (Nat.ltb_ge _ _)) by lia.
    eexists. split; [done|]. right. right. repeat split; [done | lia].
Qed.

(** Case analysis on an iteration known to have returned: [Hst'] is the
    equation of its result, [Hcases] names the three-way disjunction. *)
Ltac iteration_cases tl st raw Hst' Hcases :=
  let s := fresh "s" in
  let Hs := fresh "Hs" in
  destruct (align_line_cases tl st raw) as (s & Hs & Hcases);
  rewrite Hst' in Hs; injection Hs as <-.

Lemma align_line_total tl st raw : ∃ st', align_line tl st raw = Ok st'.
Proof. destruct (align_line_cases tl st raw) as (st' & ? & _). eauto. Qed.

(** An iteration appends exactly one result, for the stripped line, and
    never moves the pointer back. *)
Lemma align_line_step tl st raw st' :
  align_line tl st raw = Ok st' →
  current_pos st ≤ current_pos st'
  ∧ ∃ r, results st' = results st ++ [r] ∧ line r = strip raw.
Proof.
  intros Hst. iteration_cases tl st raw Hst Hcases.
  destruct Hcases as [(_ & ->)|[(HW & Hp & Hm)|(_ & _ & ->)]].
  - split; [done|]. eexists. split; done.
  - destruct Hm as (best & j & first & final & Hbm & _ & _ & ->).
    apply best_match_bounds in Hbm. cbn. split; [lia|].
    eexists. split; done.
  - split; [done|]. eexists. split; [done|]. unfold gap_fill.
    destruct (last (results st)) as [[? ? [?|]]|]; done.
Qed.

(** ** The test window and the anchor *)

Lemma forM_words tl s n :
  s + n ≤ length tl →
  forM (λ i, t ← subscript tl (s + i); Ok (word t)) (seq 0 n)
  = Ok (map word (take n (drop s tl))).
Proof.
  induction n as [|n IH]; intros Hn.
  - by rewrite take_0.
  - rewrite seq_S, forM_app, IH by lia. cbn.
    destruct (subscript_lt tl (s + n)) as (t & -> & Ht); [lia|]. cbn.
    rewrite (take_S_r _ _ t) by (by rewrite lookup_drop).
    by rewrite map_app.
Qed.

Lemma test_window_spec tl i :
  i ≤ length tl → test_window tl i = Ok (window_at tl i).
Proof.
  intros Hi. unfold test_window, window_at. rewrite forM_words by lia. cbn.
  destruct (decide (15 ≤ length tl - i)).
  - by rewrite Nat.min_l.
  - rewrite Nat.min_r by lia.
    rewrite !take_ge; [done | | ]; rewrite length_drop; lia.
Qed.

(** The loop of lines 72-78 over [range(a, a+n)], entered with a running
    best [(bs, bp)]. *)
Lemma anchor_fold tl R a n bs bp :
  a + n ≤ length tl →
  ∃ bs' bp',
    foldM (anchor_step tl R) (bs, bp) (seq a n) = Ok (bs', bp')
    ∧ ((bs' = bs ∧ bp' = bp
        ∧ ∀ i, a ≤ i < a + n → overlap_score R (window_at tl i) ≤ bs)
       ∨ (a ≤ bp' < a + n ∧ overlap_score R (window_at tl bp') = bs'
          ∧ bs < bs'
          ∧ ∀ i, a ≤ i < a + n →
                 overlap_score R (window_at tl i) ≤ bs'
                 ∧ (i < bp' → overlap_score R (window_at tl i) < bs'))).
Proof.
  revert a bs bp. induction n as [|n IH]; intros a bs bp Han; cbn.
  { exists bs, bp. split; [done|]. left. repeat split. intros; lia. }
  rewrite test_window_spec by lia. cbn.
  remember (overlap_score R (window_at tl a)) as sc eqn:Hsc.
  destruct (bs <? sc) eqn:Hlt; cbn.
  - apply Nat.ltb_lt in Hlt.
    destruct (IH (S a) sc a) as (bs' & bp' & -> & Hcases); [lia|].
    exists bs', bp'. split; [done|]. right.
    destruct Hcases as [(E1 & E2 & Hall)|(Hrange & Hscore & Hlt' & Hall)].
    + subst bs' bp'. split; [lia|]. split; [done|]. split; [done|].
      intros i Hi. destruct (decide (i = a)) as [->|Hne]; [lia|].
      pose proof (Hall i ltac:(lia)). lia.
    + split; [lia|]. split; [done|]. split; [lia|].
      intros i Hi. destruct (decide (i = a)) as [->|Hne]; [lia|].
      pose proof (Hall i ltac:(lia)). lia.
  - apply Nat.ltb_ge in Hlt.
    destruct (IH (S a) bs bp) as (bs' & bp' & -> & Hcases); [lia|].
    exists bs', bp'. split; [done|].
    destruct Hcases as [(E1 & E2 & Hall)|(Hrange & Hscore & Hlt' & Hall)].
    + left. subst bs' bp'. split; [done|]. split; [done|].
      intros i Hi. destruct (decide (i = a)) as [->|Hne]; [lia|].
      pose proof (Hall i ltac:(lia)). lia.
    + right. split; [lia|]. split; [done|]. split; [done|].
      intros i Hi. destruct (decide (i = a)) as [->|Hne]; [lia|].
      pose proof (Hall i ltac:(lia)). lia.
Qed.

(** The anchor search never raises; it returns 0 when no window scores
    above zero and otherwise the first index of maximal score. *)
Lemma anchor_search_spec tl R :
  let bound := min 50 (length tl) in
  let score i := overlap_score R (window_at tl i) in
  ∃ pos,
    anchor_search tl R = Ok pos
    ∧ ((pos = 0 ∧ ∀ i, i < bound → score i = 0)
       ∨ (pos < bound ∧ 0 < score pos
          ∧ ∀ i, i < bound → score i ≤ score pos
                             ∧ (i < pos → score i < score pos))).
Proof.
  intros bound score. unfold anchor_search.
  destruct (anchor_fold tl R 0 (min 50 (length tl)) 0 0)
    as (bs' & bp' & -> & Hcases); [lia|].
  cbn. exists bp'. split; [done|]. subst bound score. cbn beta.
  destruct Hcases as [(_ & -> & Hall)|(Hrange & Hscore & Hlt & Hall)].
  - left. split; [done|]. intros i Hi. pose proof (Hall i ltac:(lia)). lia.
  - right. rewrite Hscore. split; [lia|]. split; [lia|].
    intros i Hi. pose proof (Hall i ltac:(lia)). lia.
Qed.

Lemma anchor_search_lt tl R pos :
  tl ≠ [] → anchor_search tl R = Ok pos → pos < length tl.
Proof.
  intros Htl Hpos.
  destruct (anchor_search_spec tl R) as (pos' & Hpos' & Hcases).
  rewrite Hpos in Hpos'. injection Hpos' as <-.
  destruct tl; [done|]. cbn in *. destruct Hcases as [(-> & _)|(? & _)]; lia.
Qed.

(** ** The word timeline *)

(** Lines 47-59 for one segment: the division of line 51 is only reached
    with a positive word count. *)
Lemma segment_tokens_spec seg :
  let ws := split (normalize_text (seg_text seg)) in
  let tpw := ((seg_end seg - seg_start seg) / flt_of_nat (length ws))%F in
  segment_tokens seg
  = Ok (imap (λ i w, Token w (seg_start seg + flt_of_nat i * tpw)%F
                             (seg_start seg + flt_of_nat i * tpw + tpw)%F) ws).
Proof.
  intros ws tpw. unfold segment_tokens. fold ws.
  destruct ws as [|w ws'] eqn:E; [done|].
  rewrite truediv_pos by (cbn; lia). done.
Qed.

Lemma segment_tokens_list seg : segment_tokens seg = Ok (token_list seg).
Proof. apply segment_tokens_spec. Qed.

Lemma build_timeline_snoc segs seg :
  build_timeline (segs ++ [seg])
  = (tl ← build_timeline segs; toks ← segment_tokens seg; Ok (tl ++ toks)).
Proof.
  unfold build_timeline. rewrite foldM_app. cbn.
  destruct (foldM _ _ segs) as [tl|e]; cbn; [|done]. apply bind_ret_r.
Qed.

Lemma build_timeline_cons_from acc seg segs :
  foldM (λ tl sg, toks ← segment_tokens sg; Ok (tl ++ toks)) acc (seg :: segs)
  = (toks ← segment_tokens seg;
     foldM (λ tl sg, toks ← segment_tokens sg; Ok (tl ++ toks))
           (acc ++ toks) segs).
Proof. cbn. by destruct (segment_tokens seg). Qed.

Lemma build_timeline_total segs : ∃ tl, build_timeline segs = Ok tl.
Proof.
  unfold build_timeline.
  destruct (foldM_invariant (λ _, True)
              (λ tl sg, toks ← segment_tokens sg; Ok (tl ++ toks)) segs [])
    as (tl & Htl & _); [|done|eauto].
  intros tl seg _ _. rewrite segment_tokens_spec. cbn. eauto.
Qed.

Lemma build_timeline_concat acc segs :
  foldM (λ tl sg, toks ← segment_tokens sg; Ok (tl ++ toks)) acc segs
  = Ok (acc ++ concat (map token_list segs)).
Proof.
  revert acc. induction segs as [|seg segs IH]; intros acc.
  - cbn. by rewrite app_nil_r.
  - rewrite build_timeline_cons_from, segment_tokens_list. cbn [mbind result_bind].
    rewrite IH. cbn. by rewrite <- app_assoc.
Qed.

Lemma token_list_lookup seg i t :
  token_list seg !! i = Some t →
  let part := ((seg_end seg - seg_start seg)
               / flt_of_nat (length (segment_words seg)))%F in
  i < length (segment_words seg)
  ∧ word_start t = (seg_start seg + flt_of_nat i * part)%F
  ∧ word_end t = (seg_start seg + flt_of_nat i * part + part)%F.
Proof.
  intros Ht part. unfold token_list in Ht.
  apply list_lookup_imap_Some in Ht as (w & Hw & ->).
  apply lookup_lt_Some in Hw. done.
Qed.

(** *** Time order *)

Lemma in_order_le `{!FloatOrder} lo hi tl : in_order lo hi tl → (lo <= hi)%F.
Proof.
  revert lo. induction tl as [|t tl IH]; intros lo; cbn; [done|].
  intros (H1 & H2 & H3). apply IH in H3.
  eapply flt_le_trans; [done|]. by eapply flt_le_trans.
Qed.

Lemma in_order_bounds `{!FloatOrder} lo hi tl i t :
  in_order lo hi tl → tl !! i = Some t →
  (lo <= word_start t)%F ∧ (word_start t <= word_end t)%F
  ∧ (word_end t <= hi)%F.
Proof.
  revert lo i. induction tl as [|t0 tl IH]; intros lo i; cbn; [done|].
  intros (H1 & H2 & H3) Hi. destruct i as [|i]; cbn in Hi.
  - injection Hi as ->. apply in_order_le in H3. done.
  - destruct (IH _ _ H3 Hi) as (? & ? & ?). split; [|done].
    eapply flt_le_trans; [done|]. by eapply flt_le_trans.
Qed.

(** In a timeline in time order, a token starts no later than any token at
    the same or a later index ends. *)
Lemma in_order_pair `{!FloatOrder} lo hi tl i j a b :
  in_order lo hi tl → i ≤ j → tl !! i = Some a → tl !! j = Some b →
  (word_start a <= word_end b)%F.
Proof.
  revert lo i j. induction tl as [|t0 tl IH]; intros lo i j; cbn; [done|].
  intros (H1 & H2 & H3) Hij Hi Hj. destruct i as [|i], j as [|j]; cbn in *.
  - injection Hi as ->. by injection Hj as ->.
  - injection Hi as ->.
    destruct (in_order_bounds _ _ _ _ _ H3 Hj) as (? & ? & ?).
    eapply flt_le_trans; [done|]. eapply flt_le_trans; [done|].
    done.
  - lia.
  - eapply (IH _ i j); [done | lia | done | done].
Qed.

(** The tokens of a well-formed segment: each ends no earlier than the
    segment starts and starts no later than the segment ends, and a token
    starts no later than the tokens after it end. *)
Lemma token_list_within `{!FloatLaws} seg i t :
  (seg_start seg <= seg_end seg)%F → token_list seg !! i = Some t →
  (seg_start seg <= word_end t)%F ∧ (word_start t <= seg_end seg)%F.
Proof.
  intros Hse Ht. destruct (token_list_lookup _ _ _ Ht) as (Hi & -> & ->).
  assert (0 < length (segment_words seg)) as Hk by lia.
  pose proof (part_nonneg _ _ _ Hse Hk) as Hpart. split.
  - eapply flt_le_trans; [|by apply fadd_nonneg].
    by apply fadd_nonneg, fmul_nonneg.
  - by apply part_within.
Qed.

Lemma token_list_sorted `{!FloatLaws} seg :
  (seg_start seg <= seg_end seg)%F → starts_before_ends (token_list seg).
Proof.
  intros Hse i j a b Hij Ha Hb.
  destruct (token_list_lookup _ _ _ Ha) as (Hi & -> & _).
  destruct (token_list_lookup _ _ _ Hb) as (Hj & _ & ->).
  assert (0 < length (segment_words seg)) as Hk by lia.
  pose proof (part_nonneg _ _ _ Hse Hk) as Hpart.
  eapply flt_le_trans; [|by apply fadd_nonneg].
  by apply fadd_mono, fmul_mono.
Qed.

Lemma starts_before_ends_app tl1 tl2 :
  starts_before_ends tl1 → starts_before_ends tl2 →
  (∀ a b, a ∈ tl1 → b ∈ tl2 → (word_start a <= word_end b)%F) →
  starts_before_ends (tl1 ++ tl2).
Proof.
  intros H1 H2 Hcross i j a b Hij Ha Hb.
  apply lookup_app_Some in Ha as [Ha|[Hi Ha]];
    apply lookup_app_Some in Hb as [Hb|[Hj Hb]].
  - by eapply (H1 i j).
  - apply Hcross; by eapply list_elem_of_lookup_2.
  - apply lookup_lt_Some in Hb. lia.
  - eapply (H2 (i - length tl1) (j - length tl1)); [lia | done | done].
Qed.

Lemma timeline_sorted `{!FloatLaws} lo segs :
  segments_from lo segs →
  starts_before_ends (concat (map token_list segs))
  ∧ ∀ b, b ∈ concat (map token_list segs) → (lo <= word_end b)%F.
Proof.
  revert lo. induction segs as [|seg segs IH]; intros lo; cbn.
  { intros _. split; [by intros i j a b _ ?|by intros b ?%elem_of_nil]. }
  intros (Hlo & Hse & Hrest). destruct (IH _ Hrest) as (Hsorted & Hlower).
  split.
  - apply starts_before_ends_app; [by apply token_list_sorted | done |].
    intros a b Ha Hb. apply list_elem_of_lookup in Ha as (i & Ha).
    destruct (token_list_within _ _ _ Hse Ha) as (_ & Hstart).
    eapply flt_le_trans; [done|]. by apply Hlower.
  - intros b [Hb|Hb]%elem_of_app.
    + apply list_elem_of_lookup in Hb as (i & Hb).
      destruct (token_list_within _ _ _ Hse Hb) as (Hend & _).
      by eapply flt_le_trans.
    + eapply flt_le_trans; [done|]. eapply flt_le_trans; [done|].
      by apply Hlower.
Qed.

Lemma segments_from_chronological segs :
  well_formed segs → chronological segs →
  ∀ lo, (∀ seg, head segs = Some seg → (lo <= seg_start seg)%F) →
        segments_from lo segs.
Proof.
  induction segs as [|seg segs IH]; intros Hwf Hch lo Hlo; cbn; [done|].
  apply Forall_cons in Hwf as [Hseg Hwf].
  split; [by apply Hlo|]. split; [done|].
  apply IH; [done | |].
  - intros i a b Ha Hb. by apply (Hch (S i)).
  - intros seg' Hhd. destruct segs as [|seg'' segs]; [done|].
    injection Hhd as ->. by apply (Hch 0).
Qed.

(** Well-formed segments that follow one another give a timeline in
    which no token starts after a later token ends. *)
Lemma build_timeline_sorted `{!FloatLaws} segs :
  well_formed segs → chronological segs →
  ∃ tl, build_timeline segs = Ok tl ∧ starts_before_ends tl.
Proof.
  intros Hwf Hch. unfold build_timeline. rewrite build_timeline_concat.
  eexists. split; [done|]. cbn.
  set (lo := match segs with [] => 0%F | seg :: _ => seg_start seg end).
  apply (timeline_sorted lo).
  apply segments_from_chronological; [done | done |].
  intros seg Hhd. destruct segs; [done|]. injection Hhd as ->. subst lo.
  apply flt_le_refl.
Qed.

(** ** The loop over the lines *)

Lemma align_lines_snoc tl st ls l :
  align_lines tl st (ls ++ [l])
  = (st' ← align_lines tl st ls; align_line tl st' l).
Proof.
  unfold align_lines. rewrite foldM_app. cbn.
  destruct (foldM _ st ls) as [st'|e]; cbn; [|done]. apply bind_ret_r.
Qed.

(** One result per line, each for its own stripped line; the pointer does
    not move back; nothing raises. *)
Lemma align_lines_results tl ls st :
  ∃ st' rs,
    align_lines tl st ls = Ok st'
    ∧ results st' = results st ++ rs
    ∧ Forall2 (λ l r, line r = strip l) ls rs
    ∧ current_pos st ≤ current_pos st'.
Proof.
  revert st. induction ls as [|l ls IH]; intros st.
  - exists st, []. cbn. rewrite app_nil_r. repeat split; [constructor | lia].
  - destruct (align_line_total tl st l) as (st1 & Hst1).
    destruct (align_line_step _ _ _ _ Hst1) as (Hpos & r & Hres & Hline).
    destruct (IH st1) as (st' & rs & Hst' & Hres' & Hall & Hpos').
    exists st', (r :: rs). unfold align_lines in *. cbn. rewrite Hst1. cbn.
    split; [done|]. split; [|split; [by constructor | lia]].
    rewrite Hres', Hres, <- app_assoc. done.
Qed.

(** An invariant of the states that every iteration keeps holds at the end
    of the loop. *)
Lemma align_lines_invariant (P : loop_state → Prop) tl ls st st' :
  (∀ s l s', P s → align_line tl s l = Ok s' → P s') →
  P st → align_lines tl st ls = Ok st' → P st'.
Proof.
  intros Hstep. revert st. induction ls as [|l ls IH]; intros st Hst; cbn.
  - by intros [= <-].
  - destruct (align_line tl st l) as [s1|e] eqn:E; cbn; [|done].
    apply IH. by eapply Hstep.
Qed.

Lemma align_lines_take tl st lines i j si sj :
  i ≤ j →
  align_lines tl st (take i lines) = Ok si →
  align_lines tl st (take j lines) = Ok sj →
  align_lines tl si (drop i (take j lines)) = Ok sj.
Proof.
  intros Hij Hi Hj.
  rewrite <- (take_drop i (take j lines)), take_take, Nat.min_l in Hj by done.
  unfold align_lines in *. rewrite foldM_app, Hi in Hj. done.
Qed.

Lemma align_lines_pos_le tl st ls st' :
  align_lines tl st ls = Ok st' → current_pos st ≤ current_pos st'.
Proof.
  intros Hst'.
  destruct (align_lines_results tl ls st) as (s & rs & Hs & _ & _ & Hpos).
  rewrite Hst' in Hs. by injection Hs as <-.
Qed.

(** After a line with words has been processed, the pointer lies beyond
    the offset chosen for it, unless the timeline was already used up. *)
Lemma align_line_offset tl st raw st' best j :
  lyric_words_of raw ≠ [] →
  align_line tl st raw = Ok st' →
  best_match tl (current_pos st) (lyric_words_of raw) = Ok (best, j) →
  j ≤ current_pos st' ∧ (j < length tl → j < current_pos st').
Proof.
  intros HW Hst' Hbm. iteration_cases tl st raw Hst' Hcases.
  destruct Hcases as [(HW' & _)|[(_ & Hp & Hm)|(_ & Hp & ->)]]; [done| |].
  - destruct Hm as (best' & j' & first & final & Hbm' & Hfirst & _ & ->).
    cbn in Hbm'. rewrite Hbm in Hbm'. injection Hbm' as <- <-.
    apply lookup_lt_Some in Hfirst.
    assert (0 < length (lyric_words_of raw)).
    { destruct (lyric_words_of raw); [done | cbn; lia]. }
    cbn. lia.
  - apply best_match_bounds in Hbm. cbn. lia.
Qed.

(** ** The whole function *)

Lemma find_anchor_total tl lines :
  ∃ a, find_anchor tl lines = Ok a ∧ (tl ≠ [] → a < length tl).
Proof.
  unfold find_anchor.
  destruct (anchor_search_spec tl (first_few_lyrics lines)) as (a & Ha & _).
  exists a. split; [done|]. intros Htl. by eapply anchor_search_lt.
Qed.

(** The two ways [fallback_align] returns. *)
Lemma fallback_align_cases segs lines :
  ∃ tl, build_timeline segs = Ok tl
    ∧ ((tl = []
        ∧ fallback_align segs lines
          = Ok (map (λ l, Aligned l None None) lines))
       ∨ (tl ≠ []
          ∧ ∃ a st, find_anchor tl lines = Ok a ∧ a < length tl
              ∧ align_lines tl (LoopState a []) lines = Ok st
              ∧ fallback_align segs lines = Ok (results st))).
Proof.
  destruct (build_timeline_total segs) as (tl & Htl). exists tl.
  split; [done|]. unfold fallback_align. rewrite Htl. cbn.
  destruct tl as [|t tl']; [by left|]. right. split; [done|].
  destruct (find_anchor_total (t :: tl') lines) as (a & Ha & Hlt).
  destruct (align_lines_results (t :: tl') lines (LoopState a []))
    as (st & rs & Hst & _).
  exists a, st. rewrite Ha. cbn. rewrite Hst. cbn. auto.
Qed.

Lemma fallback_align_lines segs lines :
  ∃ tl rs, build_timeline segs = Ok tl
    ∧ fallback_align segs lines = Ok rs
    ∧ Forall2 (λ l r, (tl = [] → line r = l) ∧ (tl ≠ [] → line r = strip l))
              lines rs.
Proof.
  destruct (fallback_align_cases segs lines) as (tl & Htl & Hcases).
  exists tl. destruct Hcases as [(-> & Hfa)|(Hne & a & st & Ha & _ & Hst & Hfa)].
  - eexists. split; [done|]. split; [done|]. clear Hfa.
    induction lines as [|l lines IH]; constructor; [done | apply IH].
  - exists (results st). split; [done|]. split; [done|].
    destruct (align_lines_results tl lines (LoopState a []))
      as (st' & rs & Hst' & Hres & Hall & _).
    rewrite Hst in Hst'. injection Hst' as <-. cbn in Hres. rewrite Hres.
    eapply Forall2_impl; [done|]. cbn. intros l r Hl. done.
Qed.

(** ** Synthesized times *)

(** Lines 122-128: the synthesized entry spans two seconds from the time
    taken from the entry before it. *)
Lemma gap_fill_shape rs l :
  ∃ t, gap_fill rs l = Aligned l (Some t) (Some (t + 2)%F)
       ∧ match last rs with
         | Some prev =>
             match end_ prev, start prev with
             | Some e, _ => t = e
             | None, Some s => t = s
             | None, None => t = 0%F
             end
         | None => t = 0%F
         end.
Proof.
  unfold gap_fill. destruct (last rs) as [[ln [s|] [e|]]|]; cbn; eauto.
Qed.

Lemma timing_ok_gap_fill `{!FloatLaws} rs l : timing_ok (gap_fill rs l).
Proof.
  destruct (gap_fill_shape rs l) as (t & -> & _). unfold timing_ok. cbn.
  apply fadd_nonneg, flt_of_nat_le. lia.
Qed.

(** In a timeline where no token starts after a later one ends, every
    iteration emits a well-timed entry. *)
Lemma align_line_timing `{!FloatLaws} tl st raw st' :
  starts_before_ends tl → Forall timing_ok (results st) →
  align_line tl st raw = Ok st' → Forall timing_ok (results st').
Proof.
  intros Hin Hok Hst'. iteration_cases tl st raw Hst' Hcases.
  destruct Hcases as [(_ & ->)|[(HW & Hp & Hm)|(_ & _ & ->)]]; cbn.
  - apply Forall_app. split; [done|]. by apply Forall_singleton.
  - destruct Hm as (best & j & first & final & _ & Hfirst & Hfinal & ->).
    cbn. apply Forall_app. split; [done|]. apply Forall_singleton.
    unfold timing_ok. cbn.
    eapply (Hin j); [|done|done].
    apply lookup_lt_Some in Hfirst.
    assert (0 < length (lyric_words_of raw)).
    { destruct (lyric_words_of raw); [done | cbn; lia]. }
    lia.
  - apply Forall_app. split; [done|]. apply Forall_singleton.
    apply timing_ok_gap_fill.
Qed.

Lemma align_line_invariant tl st raw st' :
  loop_invariant tl st → align_line tl st raw = Ok st' →
  loop_invariant tl st'.
Proof.
  intros (Hpos & Hall) Hst'. iteration_cases tl st raw Hst' Hcases.
  assert (∀ r p, (end_ r = None → start r = None) →
                 loop_invariant tl (LoopState p (results st ++ [r]))) as Hadd.
  { intros r p Hr. split; cbn.
    - intros E. by apply app_eq_nil in E as [_ ?].
    - apply Forall_app. split; [done|]. by apply Forall_singleton. }
  destruct Hcases as [(_ & ->)|[(HW & Hp & Hm)|(_ & _ & ->)]].
  - by apply Hadd.
  - destruct Hm as (best & j & first & final & _ & _ & _ & ->).
    by apply Hadd.
  - apply Hadd. destruct (gap_fill_shape (results st) (strip raw))
      as (t & -> & _). done.
Qed.

(** Every iteration emits an entry with both times or none. *)
Lemma align_line_both_or_none tl st raw st' :
  Forall (λ r, start r = None ↔ end_ r = None) (results st) →
  align_line tl st raw = Ok st' →
  Forall (λ r, start r = None ↔ end_ r = None) (results st').
Proof.
  intros Hall Hst'. iteration_cases tl st raw Hst' Hcases.
  assert (∀ r p, (start r = None ↔ end_ r = None) →
            Forall (λ r, start r = None ↔ end_ r = None)
                   (results (LoopState p (results st ++ [r])))) as Hadd.
  { intros r p Hr. cbn. apply Forall_app. split; [done|].
    by apply Forall_singleton. }
  destruct Hcases as [(_ & ->)|[(HW & Hp & Hm)|(_ & _ & ->)]].
  - by apply Hadd.
  - destruct Hm as (best & j & first & final & _ & _ & _ & ->).
    by apply Hadd.
  - apply Hadd. destruct (gap_fill_shape (results st) (strip raw))
      as (t & -> & _). done.
Qed.

(** Consecutive lines with words, met after the timeline is used up. *)
Lemma gap_run tl run st :
  length tl ≤ current_pos st → Forall (λ l, lyric_words_of l ≠ []) run →
  ∃ rs,
    align_lines tl st run = Ok (LoopState (current_pos st) (results st ++ rs))
    ∧ length rs = length run
    ∧ ∀ k r, rs !! k = Some r →
             ∃ l, run !! k = Some l
                  ∧ r = gap_fill (results st ++ take k rs) (strip l).
Proof.
  intros Hp Hrun. revert st Hp.
  induction Hrun as [|l run Hl Hrun IH]; intros st Hp.
  - exists []. cbn. rewrite app_nil_r. destruct st. done.
  - destruct (align_line_cases tl st l) as (s & Hs & Hcases).
    destruct Hcases as [(HW & _)|[(_ & Hp' & _)|(_ & _ & ->)]];
      [done | lia |].
    destruct (IH (emit st (gap_fill (results st) (strip l))) Hp)
      as (rs & Hrs & Hlen & Hall).
    exists (gap_fill (results st) (strip l) :: rs).
    unfold align_lines in *. cbn [foldM]. rewrite Hs. cbn [mbind result_bind].
    rewrite Hrs. cbn [emit current_pos results]. rewrite <- app_assoc.
    split; [done|]. split; [cbn; lia|].
    intros [|k] r Hr; cbn in Hr.
    + injection Hr as <-. exists l. rewrite take_0, app_nil_r. done.
    + destruct (Hall k r Hr) as (l' & Hl' & ->). exists l'. split; [done|].
      cbn [emit results take]. by rewrite <- app_assoc.
Qed.

(** * Properties of the alignment pass *)



(** C3 (amended). AnchorLocator. The reference string is built from the
    non-blank lines among the first three lyric lines, normalized and
    joined, so lines from the fourth on never influence the anchor. Each
    index [i] of [[0, min(50, |timeline|))] is scored by the number of words
    of the reference string that occur as a substring of the string
    joining up to 15 consecutive timeline words from [i] on. The anchor is
    0 when no index scores above zero, and otherwise the smallest index of
    maximal score. The search never raises. *)
Theorem anchor_locator tl lines :
  let R := first_few_lyrics lines in
  let bound := min 50 (length tl) in
  let score i := overlap_score R (window_at tl i) in
  R = join (map normalize_text
              (List.filter (λ l, negb (bool_decide (strip l = [])))
                           (take 3 lines)))
  ∧ (∀ lines', take 3 lines' = take 3 lines →
               find_anchor tl lines' = find_anchor tl lines)
  ∧ (∀ i, i < bound → test_window tl i = Ok (window_at tl i))
  ∧ ∃ pos,
      find_anchor tl lines = Ok pos
      ∧ ((pos = 0 ∧ ∀ i, i < bound → score i = 0)
         ∨ (pos < bound ∧ 0 < score pos
            ∧ ∀ i, i < bound → score i ≤ score pos
                               ∧ (i < pos → score i < score pos))).
Proof.
  intros R bound score. split; [done|]. split; [|split].
  - intros lines' Htake. unfold find_anchor, first_few_lyrics.
    by rewrite Htake.
  - intros i Hi. apply test_window_spec. subst bound. lia.
  - apply anchor_search_spec.
Qed.



(** C6. Output length and order. For every segment list and every list of
    lyric lines the function returns exactly one entry per line, blank
    lines and the empty timeline included, and the i-th entry is the one
    for the i-th line (it carries that line's text, as given or stripped). *)
Theorem one_result_per_line segs lines :
  ∃ rs, fallback_align segs lines = Ok rs
    ∧ length rs = length lines
    ∧ ∀ i l, lines !! i = Some l →
             ∃ r, rs !! i = Some r ∧ (line r = l ∨ line r = strip l).
Proof.
  destruct (fallback_align_lines segs lines) as (tl & rs & _ & Hrs & Hall).
  exists rs. split; [done|]. split; [symmetry; by eapply Forall2_length|].
  intros i l Hl.
  destruct (Forall2_lookup_l _ _ _ _ _ Hall Hl) as (r & Hr & Hnil & Hcons).
  exists r. split; [done|]. destruct tl; [left | right]; auto.
Qed.

(** C7. Monotonic pointer. Along the pass over the lines the pointer never
    decreases; and of two lines with words, the later one is matched at an
    offset that is not smaller than the offset of the earlier one (it is
    larger when the earlier offset lies inside the timeline). *)
Theorem pointer_monotone tl st0 lines i j si sj :
  i ≤ j →
  align_lines tl st0 (take i lines) = Ok si →
  align_lines tl st0 (take j lines) = Ok sj →
  current_pos si ≤ current_pos sj
  ∧ ∀ li lj bi oi bj oj,
      i < j → lines !! i = Some li → lines !! j = Some lj →
      lyric_words_of li ≠ [] → lyric_words_of lj ≠ [] →
      best_match tl (current_pos si) (lyric_words_of li) = Ok (bi, oi) →
      best_match tl (current_pos sj) (lyric_words_of lj) = Ok (bj, oj) →
      oi ≤ oj ∧ (oi < length tl → oi < oj).
Proof.
  intros Hij Hi Hj. split.
  { eapply align_lines_pos_le. by eapply align_lines_take. }
  intros li lj bi oi bj oj Hlt Hli Hlj HWi HWj Hbi Hbj.
  destruct (align_line_total tl si li) as (si' & Hsi').
  assert (align_lines tl st0 (take (S i) lines) = Ok si') as HSi.
  { rewrite (take_S_r lines i li Hli), align_lines_snoc, Hi. done. }
  assert (current_pos si' ≤ current_pos sj) as Hpos.
  { eapply align_lines_pos_le. eapply (align_lines_take _ _ lines (S i) j);
      [lia | done | done]. }
  destruct (align_line_offset _ _ _ _ _ _ HWi Hsi' Hbi) as (Hle & Hlt').
  apply best_match_bounds in Hbj as (Hbj & _). lia.
Qed.

(** C8 (amended). Line text. Over a non-empty timeline the [line] field of
    the i-th entry is the i-th input line with leading and trailing
    whitespace stripped, and nothing else changed (no case folding, no
    punctuation removed); over an empty timeline it is the input line
    itself. *)
Theorem line_text_stripped segs lines :
  ∃ tl rs, build_timeline segs = Ok tl
    ∧ fallback_align segs lines = Ok rs
    ∧ ∀ i l r, lines !! i = Some l → rs !! i = Some r →
               (tl ≠ [] → line r = strip l) ∧ (tl = [] → line r = l).
Proof.
  destruct (fallback_align_lines segs lines) as (tl & rs & Htl & Hrs & Hall).
  exists tl, rs. split; [done|]. split; [done|]. intros i l r Hl Hr.
  destruct (Forall2_lookup_lr _ _ _ _ _ _ Hall Hl Hr) as (Hnil & Hcons). done.
Qed.


(** C10. The branch of line 127 that reads the start time of the previous
    entry is never taken. In every state the loop reaches from the anchor,
    when the pointer has left the timeline there is a previous entry, and
    if its end time is null so is its start time; hence the entry
    synthesized for a line with words either starts at the previous end
    time or is exactly [0, 2]. *)
Theorem gap_filler_start_branch_dead `{!FloatTwo} tl lines a k st raw :
  tl ≠ [] → find_anchor tl lines = Ok a →
  align_lines tl (LoopState a []) (take k lines) = Ok st →
  lines !! k = Some raw → lyric_words_of raw ≠ [] →
  length tl ≤ current_pos st →
  ∃ prev r,
    last (results st) = Some prev
    ∧ (end_ prev = None → start prev = None)
    ∧ align_line tl st raw = Ok (emit st r)
    ∧ ((∃ e, end_ prev = Some e
             ∧ start r = Some e ∧ end_ r = Some (e + 2)%F)
       ∨ (end_ prev = None ∧ start prev = None
          ∧ start r = Some 0%F ∧ end_ r = Some 2%F)).
Proof.
  intros Htl Ha Hst Hraw HW Hp.
  destruct (find_anchor_total tl lines) as (a' & Ha' & Halt).
  rewrite Ha in Ha'. injection Ha' as <-. specialize (Halt Htl).
  assert (loop_invariant tl st) as (Hnonempty & Hall).
  { apply (align_lines_invariant (loop_invariant tl)
             tl (take k lines) (LoopState a []) st); [| |done].
    - intros s l s'. apply align_line_invariant.
    - split; cbn; [done | constructor]. }
  destruct (last (results st)) as [prev|] eqn:Hlast.
  2:{ apply last_None in Hlast. specialize (Hnonempty Hlast). lia. }
  assert (end_ prev = None → start prev = None) as Hprev.
  { apply last_Some in Hlast as (rs' & Hrs'). rewrite Hrs' in Hall.
    apply Forall_app in Hall as [_ Hall].
    by inversion Hall. }
  destruct (align_line_cases tl st raw) as (st' & Hst' & Hcases).
  destruct Hcases as [(HW' & _)|[(_ & Hp' & _)|(_ & _ & ->)]];
    [done | lia |].
  exists prev, (gap_fill (results st) (strip raw)).
  split; [done|]. split; [done|]. split; [done|].
  unfold gap_fill. rewrite Hlast.
  destruct prev as [ln s [e|]]; cbn in *.
  - left. eauto.
  - right. rewrite Hprev by done. by rewrite zero_plus_two.
Qed.

End Theory.

(** ** Exact arithmetic satisfies the laws *)

Lemma Qnat_le n m : n ≤ m → (Qnat n <= Qnat m)%Q.
Proof. intros. unfold Qnat. rewrite <- Zle_Qle. lia. Qed.

Lemma Qnat_lt n m : n < m → (Qnat n < Qnat m)%Q.
Proof. intros. unfold Qnat. rewrite <- Zlt_Qlt. lia. Qed.

Lemma Qnat_pos n : 0 < n → (0 < Qnat n)%Q.
Proof. intros. change 0%Q with (Qnat 0). by apply Qnat_lt. Qed.

Lemma Qnat_nonneg n : (0 <= Qnat n)%Q.
Proof. change 0%Q with (Qnat 0). apply Qnat_le. lia. Qed.

Lemma Qnat_inj n m : (Qnat n == Qnat m)%Q → n = m.
Proof. unfold Qnat. rewrite inject_Z_injective. lia. Qed.

Lemma rational_lt (a b : Q) : @flt_lt rational a b ↔ (a < b)%Q.
Proof.
  unfold flt_lt; cbn. rewrite negb_true_iff.
  destruct (Qle_bool b a) eqn:E.
  - apply Qle_bool_iff in E. split; [discriminate | lra].
  - split; [|done]. intros _. apply Qnot_le_lt. intros Hle.
    apply Qle_bool_iff in Hle. congruence.
Qed.

Lemma rational_le (a b : Q) : @flt_le rational a b ↔ (a <= b)%Q.
Proof. unfold flt_le; cbn. rewrite negb_false_iff. apply Qle_bool_iff. Qed.

Lemma rational_eq (a b : Q) : @flt_eq rational a b ↔ (a == b)%Q.
Proof. unfold flt_eq. rewrite !rational_le. lra. Qed.

Lemma Qratio_bounds n d :
  n ≤ d → 0 < d → (0 <= Qnat n / Qnat d <= 1)%Q.
Proof.
  intros Hnd Hd. pose proof (Qnat_pos d Hd). pose proof (Qnat_le n d Hnd).
  pose proof (Qnat_nonneg n). split.
  - apply Qle_shift_div_l; [done | lra].
  - apply Qle_shift_div_r; [done | lra].
Qed.

Lemma Qratio_eq n d c :
  0 < d → (Qnat n / Qnat d == c)%Q ↔ (Qnat n == c * Qnat d)%Q.
Proof.
  intros Hd. pose proof (Qnat_pos d Hd) as Hpos. split.
  - intros E. rewrite <- E. field. lra.
  - intros E. rewrite E. field. lra.
Qed.

Lemma Qpart_nonneg (s e : Q) k :
  (s <= e)%Q → 0 < k → (0 <= (e - s) / Qnat k)%Q.
Proof.
  intros Hse Hk. pose proof (Qnat_pos k Hk).
  apply Qle_shift_div_l; [done | lra].
Qed.

Lemma Qpart_within (s e : Q) i k :
  (s <= e)%Q → i < k →
  (s + Qnat i * ((e - s) / Qnat k) <= e)%Q.
Proof.
  intros Hse Hik. assert (0 < k) as Hk by lia.
  pose proof (Qnat_pos k Hk) as Hpos. pose proof (Qnat_nonneg i) as Hi.
  pose proof (Qnat_lt i k Hik) as Hlt.
  assert (Qnat i * ((e - s) / Qnat k) <= e - s)%Q as Hle; [|lra].
  assert (Qnat i * ((e - s) / Qnat k) == (e - s) * (Qnat i / Qnat k))%Q as ->
    by (field; lra).
  assert (Qnat i / Qnat k <= 1)%Q as H1
    by (apply Qle_shift_div_r; [done | lra]).
  assert (0 <= e - s)%Q as H0 by lra.
  assert (0 <= Qnat i / Qnat k)%Q as H2
    by (apply Qle_shift_div_l; [done | lra]).
  nra.
Qed.

Lemma rational_order : @FloatOrder rational.
Proof.
  split; intros *; rewrite ?rational_lt, ?rational_le; lra.
Qed.

Lemma rational_two : @FloatTwo rational.
Proof. reflexivity. Qed.

Lemma binary64_two : @FloatTwo binary64.
Proof. reflexivity. Qed.

Lemma rational_laws : @FloatLaws rational.
Proof.
  split; [exact rational_order | exact rational_two |..]; intros *;
    rewrite ?rational_lt, ?rational_le, ?rational_eq; cbn;
    change (Qnat 0) with 0%Q; change (Qnat 2) with 2%Q.
  - apply Qnat_lt.
  - by apply Qratio_bounds.
  - intros _ Hd. rewrite Qratio_eq by done. rewrite Qmult_1_l.
    split; [apply Qnat_inj | by intros ->].
  - intros _ Hd. rewrite Qratio_eq by done. rewrite Qmult_0_l.
    change 0%Q with (Qnat 0). split; [apply Qnat_inj | by intros ->].
  - lra.
  - lra.
  - intros ->. lra.
  - lra.
  - intros Ht. apply Qmult_le_0_compat; [apply Qnat_nonneg | done].
  - intros Hnm Ht. apply Qmult_le_compat_r; [by apply Qnat_le | done].
  - intros ->. lra.
  - intros Hz Hd. rewrite Hz. unfold Qdiv. ring.
  - apply Qpart_nonneg.
  - apply Qpart_within.
Qed.

(** ** The test of the laws *)

Section LawsTestSound.
Context {O : FloatOps}.

Lemma ble_true (a b : flt) : ble a b = true ↔ (a <= b)%F.
Proof. unfold ble, flt_le. apply negb_true_iff. Qed.

Lemma beq_true (a b : flt) : beq a b = true ↔ (a == b)%F.
Proof. unfold beq, flt_eq. by rewrite andb_true_iff, !ble_true. Qed.

Lemma for_all_true {A} (xs : list A) p :
  (∀ x, p x = true) → for_all xs p = true.
Proof. intros Hp. apply forallb_forall. intros x _. apply Hp. Qed.

Lemma implb_true (a b : bool) : (a = true → b = true) → implb a b = true.
Proof. destruct a, b; cbn; auto. Qed.

Lemma eqb_true (a b : bool) : (a = true ↔ b = true) → Bool.eqb a b = true.
Proof. destruct a, b; cbn; intros [H1 H2]; auto. Qed.

(** The test succeeds wherever the laws hold: it tests nothing but
    instances of the laws. *)
Lemma laws_hold_on_complete `{!FloatLaws} counts times :
  laws_hold_on counts times = true.
Proof.
  unfold laws_hold_on. repeat (apply andb_true_iff; split).
  - apply for_all_true. intros a. apply andb_true_iff. split.
    { apply negb_true_iff, not_true_is_false, flt_lt_irrefl. }
    apply for_all_true. intros b. apply for_all_true. intros c.
    apply andb_true_iff. split; apply implb_true.
    + intros [Hab Hbc]%andb_true_iff. by apply (flt_lt_trans a b c).
    + rewrite andb_true_iff, !ble_true. intros [Hab Hbc].
      by apply (flt_le_trans a b c).
  - apply for_all_true. intros n. apply for_all_true. intros d.
    apply andb_true_iff. split; apply implb_true.
    + intros Hnd%Nat.ltb_lt. by apply flt_of_nat_lt.
    + intros [Hnd%Nat.leb_le Hd%Nat.ltb_lt]%andb_true_iff.
      destruct (ratio_range n d Hnd Hd) as [H0 H1].
      repeat (apply andb_true_iff; split).
      * by apply ble_true.
      * by apply ble_true.
      * apply eqb_true. by rewrite beq_true, Nat.eqb_eq, ratio_one.
      * apply eqb_true. by rewrite beq_true, Nat.eqb_eq, ratio_zero.
  - apply for_all_true. intros x. apply andb_true_iff. split.
    { apply fadd_two. }
    apply for_all_true. intros a. repeat (apply andb_true_iff; split).
    + apply implb_true. rewrite !ble_true. apply fadd_nonneg.
    + apply implb_true. rewrite !beq_true. apply fadd_zero.
    + apply implb_true. rewrite !beq_true. apply fsub_diag.
    + apply for_all_true. intros b. apply implb_true. rewrite !ble_true.
      apply fadd_mono.
  - apply for_all_true. intros k. apply for_all_true. intros s.
    repeat (apply andb_true_iff; split).
    + apply implb_true. rewrite !ble_true. apply fmul_nonneg.
    + apply implb_true. rewrite andb_true_iff, !beq_true, Nat.ltb_lt.
      intros [Hs Hk]. by apply fdiv_zero.
    + apply for_all_true. intros i. apply implb_true.
      rewrite andb_true_iff, !ble_true, Nat.leb_le. intros [Hik Hs].
      by apply fmul_mono.
    + apply for_all_true. intros e. apply implb_true.
      rewrite !andb_true_iff, !ble_true, Nat.ltb_lt. intros [Hse Hk].
      split; [by apply part_nonneg|].
      apply for_all_true. intros i. apply implb_true.
      rewrite ble_true, Nat.ltb_lt. intros Hik. by apply part_within.
Qed.

End LawsTestSound.

(** * The properties on concrete input *)

(** ** With the floats of the interpreter *)

Section Binary64.
#[local] Existing Instance binary64.
#[local] Existing Instance binary64_two.

(** The laws hold of the interpreter's floats at the counts up to 40 and
    at the sample times. *)
Example binary64_laws_on_sample :
  laws_hold_on (seq 0 41) sample_times = true.
Proof. vm_compute. reflexivity. Qed.

Example scenario_no_segments :
  fallback_align [] [py "a"; py "b"]
  = Ok [Aligned (py "a") None None; Aligned (py "b") None None].
Proof. reflexivity. Qed.

Example scenario_blank_line_preserved :
  fallback_align hi_yo_segments [py "hi"; []; py "yo"]
  = Ok [Aligned (py "hi") (Some 0%F) (Some 2%F);
        Aligned ([]) None None;
        Aligned (py "yo") (Some 2%F) (Some (flt_of_nat 4))].
Proof. vm_compute. reflexivity. Qed.

(** Rounding decides the offset. On the segment ["ab cd e cd"] over
    [[0, 4]] the line ["bcd bc ace"] scores [(2/3 + 1/2) + 1/3] at offset 0
    and [(1/4 + 0) + 2/3] at offset 1: the same number, 11/12, when
    computed exactly, and two different floats. The second is the larger
    one, so the line is matched at offset 1. *)
Example near_tie_rounding :
  ∃ tl q0 q1,
    build_timeline near_tie_segments = Ok tl
    ∧ match_score tl 0 (lyric_words_of near_tie_line) = Ok q0
    ∧ match_score tl 1 (lyric_words_of near_tie_line) = Ok q1
    ∧ (q0 < q1)%F
    ∧ best_match tl 0 (lyric_words_of near_tie_line) = Ok (q1, 1)
    ∧ fallback_align near_tie_segments [near_tie_line]
      = Ok [Aligned near_tie_line (Some 1%F) (Some (flt_of_nat 4))].
Proof.
  do 3 eexists. split; [vm_compute; reflexivity|].
  split; [vm_compute; reflexivity|]. split; [vm_compute; reflexivity|].
  split; [vm_compute; reflexivity|]. split; vm_compute; reflexivity.
Qed.

(** Rounding moves the token times. The six tokens of a segment over
    [[0, 1]] are a sixth of a second apart as computed, and the last one
    ends before the segment does. *)
Example six_words_rounding :
  ∃ toks t,
    segment_tokens six_words_segment = Ok toks
    ∧ length toks = 6
    ∧ last toks = Some t
    ∧ (word_end t < seg_end six_words_segment)%F.
Proof.
  do 2 eexists. split; [vm_compute; reflexivity|].
  split; [reflexivity|]. split; [reflexivity|]. vm_compute. reflexivity.
Qed.

(** Rounding can make a token end after the next one starts. Of the nine
    tokens of a segment over [[0, 1]] the sixth ends at 0.6666666666666667
    and the seventh starts at 0.6666666666666666: a line matched by the
    first six words ends after the line matched by the last three
    starts. Each of the two still ends after it starts. *)
Example nine_words_rounding :
  ∃ s1 e1 s2 e2,
    fallback_align nine_words_segments [py "a b c d e f"; py "g h i"]
    = Ok [Aligned (py "a b c d e f") (Some s1) (Some e1);
          Aligned (py "g h i") (Some s2) (Some e2)]
    ∧ (s2 < e1)%F ∧ (s1 < e1)%F ∧ (s2 < e2)%F.
Proof.
  do 4 eexists. split; [vm_compute; reflexivity|].
  repeat split; vm_compute; reflexivity.
Qed.


(** The reference string is not made of the first three non-blank lines:
    with three blank lines before the first line of text, the reference
    string of the program is empty and the anchor stays 0, while the first
    three non-blank lines would give the reference ["hello"] and the
    anchor 1. *)
Lemma anchor_locator_counterexample :
  ∃ tl, build_timeline x_hello_segments = Ok tl
    ∧ first_few_lyrics blank3_hello = []
    ∧ spec_first_few_lyrics blank3_hello = py "hello"
    ∧ find_anchor tl blank3_hello = Ok 0
    ∧ anchor_search tl (spec_first_few_lyrics blank3_hello) = Ok 1.
Proof.
  eexists. split; [vm_compute; reflexivity|].
  split; [reflexivity|]. split; [vm_compute; reflexivity|].
  split; vm_compute; reflexivity.
Qed.



(** [pointer_monotone] on the lines ["hi"], blank, ["yo"]: before the first
    line and before the third. *)
Lemma pointer_monotone_witness :
  align_lines hi_yo_timeline (LoopState 0 [])
    (take 2 [py "hi"; []; py "yo"])
  = Ok (LoopState 1 [Aligned (py "hi") (Some 0%F) (Some 2%F);
                     Aligned [] None None])
  ∧ best_match hi_yo_timeline 0 (lyric_words_of (py "hi")) = Ok (1%F, 0)
  ∧ best_match hi_yo_timeline 1 (lyric_words_of (py "yo")) = Ok (1%F, 1)
  ∧ 0 ≤ 1 ∧ (0 ≤ 1 ∧ (0 < length hi_yo_timeline → 0 < 1)).
Proof.
  assert (align_lines hi_yo_timeline (LoopState 0 [])
            (take 2 [py "hi"; []; py "yo"])
          = Ok (LoopState 1 [Aligned (py "hi") (Some 0%F) (Some 2%F);
                             Aligned [] None None])) as Hj
    by (vm_compute; reflexivity).
  assert (best_match hi_yo_timeline 0 (lyric_words_of (py "hi"))
          = Ok (1%F, 0)) as Hbi by (vm_compute; reflexivity).
  assert (best_match hi_yo_timeline 1 (lyric_words_of (py "yo"))
          = Ok (1%F, 1)) as Hbj by (vm_compute; reflexivity).
  split; [exact Hj|]. split; [exact Hbi|]. split; [exact Hbj|].
  destruct (pointer_monotone hi_yo_timeline (LoopState 0 [])
              [py "hi"; []; py "yo"] 0 2 (LoopState 0 []) _
              ltac:(lia) eq_refl Hj) as [Hpos Hoff].
  split; [exact Hpos|].
  apply (Hoff (py "hi") (py "yo") 1%F 0 1%F 1);
    [lia | reflexivity | reflexivity
     | vm_compute; discriminate | vm_compute; discriminate
     | exact Hbi | exact Hbj].
Defined.

(** The stored text is not the input line character for character: the
    entry for the line [" hi "] carries ["hi"]. *)
Lemma line_text_counterexample :
  fallback_align hi_segments [py " hi "]
  = Ok [Aligned (py "hi") (Some 0%F) (Some 2%F)]
  ∧ py "hi" ≠ py " hi ".
Proof. split; [vm_compute; reflexivity | vm_compute; discriminate]. Qed.

(** [gap_filler_start_branch_dead] on the line ["yo"] met after ["hi"] has
    used up the timeline. *)
Lemma gap_filler_start_branch_dead_witness :
  hi_timeline ≠ []
  ∧ find_anchor hi_timeline [py "hi"; py "yo"] = Ok 0
  ∧ align_lines hi_timeline (LoopState 0 []) (take 1 [py "hi"; py "yo"])
    = Ok (LoopState 1 [Aligned (py "hi") (Some 0%F) (Some 2%F)])
  ∧ ∃ prev r,
      last [Aligned (py "hi") (Some 0%F) (Some 2%F)] = Some prev
      ∧ (end_ prev = None → start prev = None)
      ∧ align_line hi_timeline
          (LoopState 1 [Aligned (py "hi") (Some 0%F) (Some 2%F)]) (py "yo")
        = Ok (emit (LoopState 1 [Aligned (py "hi") (Some 0%F) (Some 2%F)]) r)
      ∧ ((∃ e, end_ prev = Some e
               ∧ start r = Some e ∧ end_ r = Some (e + 2)%F)
         ∨ (end_ prev = None ∧ start prev = None
            ∧ start r = Some 0%F ∧ end_ r = Some 2%F)).
Proof.
  assert (hi_timeline ≠ []) as Htl by discriminate.
  assert (find_anchor hi_timeline [py "hi"; py "yo"] = Ok 0) as Ha
    by (vm_compute; reflexivity).
  assert (align_lines hi_timeline (LoopState 0 [])
            (take 1 [py "hi"; py "yo"])
          = Ok (LoopState 1 [Aligned (py "hi") (Some 0%F) (Some 2%F)]))
    as Hst by (vm_compute; reflexivity).
  split; [exact Htl|]. split; [exact Ha|]. split; [exact Hst|].
  exact (gap_filler_start_branch_dead hi_timeline [py "hi"; py "yo"] 0 1
           (LoopState 1 [Aligned (py "hi") (Some 0%F) (Some 2%F)]) (py "yo")
           Htl Ha Hst eq_refl ltac:(vm_compute; discriminate)
           ltac:(cbn; lia)).
Defined.

End Binary64.

(** ** In exact arithmetic *)

Section Rational.
#[local] Existing Instance rational.
#[local] Existing Instance rational_order.
#[local] Existing Instance rational_laws.

Example hi_timeline_built : build_timeline hi_segments = Ok hi_timeline.
Proof. vm_compute. reflexivity. Qed.

Example hi_yo_timeline_built :
  build_timeline hi_yo_segments = Ok hi_yo_timeline.
Proof. vm_compute. reflexivity. Qed.

(** In exact arithmetic the two offsets of the near tie score the same,
    and the first is kept. *)
Example near_tie_exact :
  ∃ tl q0 q1,
    build_timeline near_tie_segments = Ok tl
    ∧ match_score tl 0 (lyric_words_of near_tie_line) = Ok q0
    ∧ match_score tl 1 (lyric_words_of near_tie_line) = Ok q1
    ∧ (q0 == q1)%F
    ∧ best_match tl 0 (lyric_words_of near_tie_line) = Ok (q0, 0).
Proof.
  do 3 eexists. split; [vm_compute; reflexivity|].
  split; [vm_compute; reflexivity|]. split; [vm_compute; reflexivity|].
  split; [split; vm_compute; reflexivity | vm_compute; reflexivity].
Qed.






End Rational.

(** * Further properties of the program *)

#[local] Arguments rstrip : simpl never.

Section Strings.
Context {U : Unicode}.

(** ** [strip] *)

Lemma strip_rstrip s : strip s = rstrip (dropwhile isspace s).
Proof. reflexivity. Qed.

Lemma dropwhile_snoc p s c :
  dropwhile p (s ++ [c])
  = match dropwhile p s with
    | [] => dropwhile p [c]
    | r => r ++ [c]
    end.
Proof.
  induction s as [|a s IH]; cbn; [done|].
  destruct (p a); [apply IH | done].
Qed.

Lemma dropwhile_idemp p s : dropwhile p (dropwhile p s) = dropwhile p s.
Proof.
  induction s as [|a s IH]; cbn; [done|].
  destruct (p a) eqn:E; [done|]. cbn. by rewrite E.
Qed.

Lemma dropwhile_nil p s : dropwhile p s = [] ↔ Forall (λ c, p c = true) s.
Proof.
  induction s as [|a s IH]; cbn.
  - split; [constructor | done].
  - destruct (p a) eqn:E.
    + rewrite IH. split; [by constructor|]. by inversion 1.
    + split; [done|]. inversion 1; congruence.
Qed.

Lemma rstrip_cons c s :
  rstrip (c :: s)
  = if isspace c
    then match rstrip s with [] => [] | r => c :: r end
    else c :: rstrip s.
Proof.
  unfold rstrip. cbn [rev]. rewrite dropwhile_snoc.
  destruct (dropwhile isspace (rev s)) as [|a r] eqn:E; cbn [dropwhile].
  - destruct (isspace c); done.
  - rewrite rev_app_distr. cbn [rev app].
    destruct (rev r ++ [a]) eqn:E'; [by destruct (rev r)|].
    by destruct (isspace c).
Qed.

Lemma rstrip_nil s : rstrip s = [] ↔ Forall (λ c, isspace c = true) s.
Proof.
  unfold rstrip. split.
  - intros E. apply (f_equal (@rev N)) in E. rewrite rev_involutive in E.
    cbn in E. apply dropwhile_nil in E.
    apply Forall_forall. intros c Hc.
    eapply Forall_forall in E; [done|].
    apply list_elem_of_In, in_rev, list_elem_of_In. by rewrite rev_involutive.
  - intros Hall. assert (dropwhile isspace (rev s) = []) as ->; [|done].
    apply dropwhile_nil, Forall_forall. intros c Hc.
    eapply Forall_forall in Hall; [done|].
    by apply list_elem_of_In, in_rev, list_elem_of_In.
Qed.

(** [strip] leaves nothing exactly on strings of whitespace. *)
Lemma strip_nil s : strip s = [] ↔ Forall (λ c, isspace c = true) s.
Proof.
  rewrite strip_rstrip, rstrip_nil. split.
  - intros Hall. induction s as [|c s IH]; [constructor|].
    cbn in Hall. destruct (isspace c) eqn:E.
    + constructor; [done | by apply IH].
    + inversion Hall; congruence.
  - intros Hall. by rewrite (proj2 (dropwhile_nil _ _) Hall).
Qed.

Lemma rstrip_idemp s : rstrip (rstrip s) = rstrip s.
Proof. unfold rstrip. by rewrite rev_involutive, dropwhile_idemp. Qed.

Lemma lstrip_rstrip_fixed s :
  dropwhile isspace s = s → dropwhile isspace (rstrip s) = rstrip s.
Proof.
  destruct s as [|c s]; [done|]. cbn [dropwhile].
  destruct (isspace c) eqn:E.
  - intros Hs. exfalso.
    assert (length (dropwhile isspace s) ≤ length s) as Hlen.
    { clear. induction s as [|a s IH]; cbn; [done|].
      destruct (isspace a); cbn; lia. }
    rewrite Hs in Hlen. cbn in Hlen. lia.
  - intros _. rewrite rstrip_cons, E. cbn [dropwhile]. by rewrite E.
Qed.

(** [strip] changes nothing when applied again. *)
Lemma strip_idemp s : strip (strip s) = strip s.
Proof.
  rewrite !strip_rstrip.
  rewrite (lstrip_rstrip_fixed (dropwhile isspace s)) by apply dropwhile_idemp.
  apply rstrip_idemp.
Qed.

(** ** [split] and [join] *)

Lemma split_from_clean cur s :
  Forall (λ c, isspace c = false) cur → Forall clean_word (split_from cur s).
Proof.
  revert cur. induction s as [|c s IH]; intros cur Hcur; cbn.
  - destruct cur as [|a cur]; [constructor|].
    apply Forall_singleton. split.
    + cbn. by destruct (rev cur).
    + apply Forall_forall. intros x Hx.
      apply list_elem_of_In, in_rev, list_elem_of_In in Hx.
      by eapply Forall_forall in Hcur.
  - destruct (isspace c) eqn:E.
    + destruct cur as [|a cur]; [by apply IH|].
      constructor; [|by apply IH]. split.
      * cbn. by destruct (rev cur).
      * apply Forall_forall. intros x Hx.
        apply list_elem_of_In, in_rev, list_elem_of_In in Hx.
        by eapply Forall_forall in Hcur.
    + apply IH. by constructor.
Qed.

(** The characters of the words of [split] are characters of the text. *)
Lemma split_from_chars cur s w c :
  w ∈ split_from cur s → c ∈ w → c ∈ cur ∨ c ∈ s.
Proof.
  revert cur. induction s as [|a s IH]; intros cur; cbn.
  - destruct cur as [|b cur]; [by intros ?%elem_of_nil|].
    intros ->%list_elem_of_singleton Hc. left.
    by apply list_elem_of_In, in_rev, list_elem_of_In in Hc.
  - destruct (isspace a) eqn:E.
    + destruct cur as [|b cur].
      * intros Hw Hc. destruct (IH [] Hw Hc) as [?|?]; [by left|].
        right. by right.
      * intros [->|Hw]%elem_of_cons Hc.
        -- left. by apply list_elem_of_In, in_rev, list_elem_of_In in Hc.
        -- destruct (IH [] Hw Hc) as [?%elem_of_nil|?]; [done|].
           right. by right.
    + intros Hw Hc. destruct (IH (a :: cur) Hw Hc) as [Hin|?].
      * apply elem_of_cons in Hin as [->|?]; [right; left | by left].
      * right. by right.
Qed.

Lemma split_from_word cur w s :
  Forall (λ c, isspace c = false) w →
  split_from cur (w ++ s) = split_from (rev w ++ cur) s.
Proof.
  revert cur. induction w as [|c w IH]; intros cur Hw; [done|].
  apply Forall_cons in Hw as [Hc Hw]. cbn. rewrite Hc, IH by done.
  by rewrite <- app_assoc.
Qed.

Lemma join_cons_cons w w' ws : join (w :: w' :: ws) = w ++ SPACE :: join (w' :: ws).
Proof. done. Qed.

Lemma join_nil_clean ws : Forall clean_word ws → join ws = [] → ws = [].
Proof.
  destruct ws as [|w [|w' ws]]; [done| |].
  - intros [[Hw _] _]%Forall_cons. done.
  - intros _. rewrite join_cons_cons. by destruct w.
Qed.

(** Joining clean words with spaces and splitting again gives the words
    back. *)
Lemma split_join ws :
  isspace SPACE = true → Forall clean_word ws → split (join ws) = ws.
Proof.
  intros Hsp. unfold split.
  induction ws as [|w ws IH]; intros Hws; [done|].
  apply Forall_cons in Hws as [[Hne Hw] Hws].
  destruct ws as [|w' ws].
  - cbn [join]. rewrite <- (app_nil_r w) at 1.
    rewrite split_from_word, app_nil_r by done. cbn.
    destruct (rev w) eqn:E; [|by rewrite <- E, rev_involutive].
    apply (f_equal (@rev N)) in E. rewrite rev_involutive in E. done.
  - rewrite join_cons_cons, split_from_word, app_nil_r by done.
    cbn [split_from]. rewrite Hsp.
    destruct (rev w) eqn:E.
    { apply (f_equal (@rev N)) in E. rewrite rev_involutive in E. done. }
    rewrite <- E, rev_involutive. f_equal. by apply IH.
Qed.

(** ** Whitespace does not matter to [split] *)

Lemma split_from_collapse b cur s :
  isspace SPACE = true → (b = true → cur = []) →
  split_from cur (collapse_from b s) = split_from cur s.
Proof.
  intros Hsp. revert b cur. induction s as [|c s IH]; intros b cur Hb; [done|].
  cbn. destruct (isspace c) eqn:E.
  - destruct b.
    + rewrite Hb by done. by apply IH.
    + cbn. rewrite Hsp. destruct cur; by rewrite IH.
  - cbn. rewrite E. by apply IH.
Qed.

Lemma split_from_lstrip s : split_from [] (dropwhile isspace s) = split_from [] s.
Proof.
  induction s as [|c s IH]; [done|]. cbn.
  destruct (isspace c) eqn:E; [done|]. cbn. by rewrite E.
Qed.

Lemma split_from_rstrip cur s : split_from cur (rstrip s) = split_from cur s.
Proof.
  revert cur. induction s as [|c s IH]; intros cur; [done|].
  rewrite rstrip_cons. destruct (isspace c) eqn:E.
  - destruct (rstrip s) as [|a r] eqn:Er.
    + cbn. rewrite E. destruct cur; by rewrite <- IH.
    + cbn. rewrite E. destruct cur; by rewrite <- IH.
  - cbn. rewrite E. apply IH.
Qed.

Lemma split_strip s : split (strip s) = split s.
Proof.
  unfold split. by rewrite strip_rstrip, split_from_rstrip, split_from_lstrip.
Qed.

(** ** The normal form of [normalize_text] *)

Lemma lstrip_collapse_true s :
  dropwhile isspace (collapse_from true s) = collapse_from true s.
Proof.
  induction s as [|c s IH]; [done|]. cbn.
  destruct (isspace c) eqn:E; [done|]. cbn. by rewrite E.
Qed.

Lemma lstrip_collapse s :
  isspace SPACE = true →
  dropwhile isspace (collapse_from false s) = collapse_from true s.
Proof.
  intros Hsp. destruct s as [|c s]; [done|]. cbn.
  destruct (isspace c) eqn:E; cbn.
  - rewrite Hsp. apply lstrip_collapse_true.
  - by rewrite E.
Qed.

(** Inside a word ([cur] not empty) and after whitespace. *)
Lemma join_split_collapse s :
  isspace SPACE = true →
  (∀ cur, cur ≠ [] → Forall (λ c, isspace c = false) cur →
          join (split_from cur s) = rev cur ++ rstrip (collapse_from false s))
  ∧ join (split_from [] s) = rstrip (collapse_from true s).
Proof.
  intros Hsp. induction s as [|c s [IHword IHgap]].
  { split; [|done]. intros [|a cur] Hne _; [done|]. cbn.
    by rewrite app_nil_r. }
  split.
  - intros cur Hne Hcur. cbn. destruct (isspace c) eqn:E.
    + destruct cur as [|a cur]; [done|].
      rewrite rstrip_cons, Hsp, <- IHgap.
      destruct (split_from [] s) as [|w ws] eqn:Es.
      * cbn. by rewrite app_nil_r.
      * rewrite join_cons_cons.
        destruct (join (w :: ws)) eqn:Ej; [|done].
        apply join_nil_clean in Ej; [done|].
        rewrite <- Es. by apply split_from_clean.
    + rewrite IHword; [|done|by constructor].
      rewrite rstrip_cons, E. cbn. by rewrite <- app_assoc.
  - cbn. destruct (isspace c) eqn:E; [done|].
    rewrite IHword; [|done|by repeat constructor].
    by rewrite rstrip_cons, E.
Qed.

Lemma strip_collapse s :
  isspace SPACE = true → strip (collapse_whitespace s) = join (split s).
Proof.
  intros Hsp. unfold collapse_whitespace, split.
  rewrite strip_rstrip, lstrip_collapse by done.
  symmetry. by apply join_split_collapse.
Qed.

Lemma normalize_text_join text :
  isspace SPACE = true →
  normalize_text text = join (split (remove_punctuation (lower text))).
Proof. intros Hsp. unfold normalize_text. by apply strip_collapse. Qed.

Lemma split_normalize_text text :
  isspace SPACE = true →
  split (normalize_text text) = split (remove_punctuation (lower text)).
Proof.
  intros Hsp. rewrite normalize_text_join by done.
  apply split_join; [done|]. by apply split_from_clean.
Qed.

Lemma split_from_app_space cur p r :
  isspace SPACE = true →
  split_from cur (p ++ SPACE :: r) = split_from cur p ++ split_from [] r.
Proof.
  intros Hsp. revert cur. induction p as [|c p IH]; intros cur; cbn.
  - rewrite Hsp. by destruct cur.
  - destruct (isspace c); [|apply IH]. destruct cur; by rewrite IH.
Qed.

Lemma split_join_parts parts :
  isspace SPACE = true → split (join parts) = concat (map split parts).
Proof.
  intros Hsp. unfold split. induction parts as [|p [|p' parts] IH].
  - done.
  - cbn. by rewrite app_nil_r.
  - rewrite join_cons_cons, split_from_app_space by done.
    by rewrite IH.
Qed.

Lemma elem_of_join c ws : c ∈ join ws → c = SPACE ∨ ∃ w, w ∈ ws ∧ c ∈ w.
Proof.
  induction ws as [|w [|w' ws] IH].
  - by intros ?%elem_of_nil.
  - cbn. intros Hc. right. exists w. split; [left | done].
  - rewrite join_cons_cons. intros [Hc|Hc]%elem_of_app.
    + right. exists w. split; [left | done].
    + apply elem_of_cons in Hc as [->|Hc]; [by left|].
      destruct (IH Hc) as [?|(w0 & Hw0 & ?)]; [by left|].
      right. exists w0. split; [by right | done].
Qed.

Lemma filter_all (p : N → bool) s :
  Forall (λ c, p c = true) s → List.filter p s = s.
Proof. induction 1 as [|c s Hc _ IH]; cbn; [done|]. by rewrite Hc, IH. Qed.

Lemma elem_of_remove_punctuation c text :
  c ∈ remove_punctuation text → c ∈ text ∧ isword c || isspace c = true.
Proof.
  unfold remove_punctuation.
  rewrite list_elem_of_In, filter_In, <- list_elem_of_In. done.
Qed.

(** The characters of the words of a normalized text: word characters
    taken from the case-folded text. *)
Lemma normalized_word_chars text w c :
  isspace SPACE = true →
  w ∈ split (normalize_text text) → c ∈ w →
  c ∈ lower text ∧ isword c = true ∧ isspace c = false.
Proof.
  intros Hsp Hw Hc. rewrite split_normalize_text in Hw by done.
  assert (isspace c = false) as Hns.
  { assert (Forall clean_word (split (remove_punctuation (lower text))))
      as Hclean by (by apply split_from_clean).
    eapply Forall_forall in Hclean as [_ Hall]; [|done].
    by eapply Forall_forall in Hall. }
  destruct (split_from_chars _ _ _ _ Hw Hc) as [?%elem_of_nil|Hin]; [done|].
  apply elem_of_remove_punctuation in Hin as [Hin Hclass].
  rewrite Hns, orb_false_r in Hclass. done.
Qed.

(** * Properties of the text functions *)

(** X1. [normalize_text], lines 21-27: the result is the words of the
    case-folded text without punctuation, joined by single spaces. So it
    is its own words joined by single spaces, and stripping it changes
    nothing. *)
Theorem normalize_text_normal_form text :
  isspace SPACE = true →
  normalize_text text = join (split (remove_punctuation (lower text)))
  ∧ split (normalize_text text) = split (remove_punctuation (lower text))
  ∧ normalize_text text = join (split (normalize_text text))
  ∧ strip (normalize_text text) = normalize_text text.
Proof.
  intros Hsp. split; [by apply normalize_text_join|].
  split; [by apply split_normalize_text|]. split.
  - rewrite split_normalize_text by done. by apply normalize_text_join.
  - unfold normalize_text. apply strip_idemp.
Qed.

(** X2. Lines 47 and 88: every word of [normalize_text(t).split()] is not
    empty and is made of word characters of the case-folded text only: no
    whitespace and no punctuation. *)
Theorem normalized_words_are_words text w :
  isspace SPACE = true → w ∈ split (normalize_text text) →
  w ≠ []
  ∧ ∀ c, c ∈ w → c ∈ lower text ∧ isword c = true ∧ isspace c = false.
Proof.
  intros Hsp Hw. split.
  - assert (Forall clean_word (split (normalize_text text))) as Hclean
      by (by apply split_from_clean).
    eapply Forall_forall in Hclean as [Hne _]; done.
  - intros c Hc. by eapply normalized_word_chars.
Qed.

(** X3. Line 68 and 75: the words of the reference string of the anchor
    search are the words of the normalized non-blank lines among the first
    three lyric lines, in order. *)
Theorem reference_words lyrics_lines :
  isspace SPACE = true →
  split (first_few_lyrics lyrics_lines)
  = concat (map (λ l, split (normalize_text l))
                (List.filter (λ l, negb (bool_decide (strip l = [])))
                             (take 3 lyrics_lines))).
Proof.
  intros Hsp. unfold first_few_lyrics.
  rewrite split_join_parts, map_map by done. done.
Qed.

(** X4. [normalize_text] is idempotent on every text whose normalized
    form case folding leaves as it is. *)
Theorem normalize_text_idempotent text :
  isspace SPACE = true →
  lower (normalize_text text) = normalize_text text →
  normalize_text (normalize_text text) = normalize_text text.
Proof.
  intros Hsp Hlower.
  set (n := normalize_text text) in *.
  assert (∀ c, c ∈ n → c = SPACE ∨ isword c = true) as Hchars.
  { intros c Hc. subst n. rewrite normalize_text_join in Hc by done.
    rewrite <- split_normalize_text in Hc by done.
    apply elem_of_join in Hc as [?|(w & Hw & Hc)]; [by left|]. right.
    by destruct (normalized_word_chars text w c Hsp Hw Hc) as (_ & ? & _). }
  assert (remove_punctuation n = n) as Hkeep.
  { apply filter_all, Forall_forall. intros c Hc.
    destruct (Hchars c Hc) as [->|Hw].
    - rewrite Hsp. apply orb_true_r.
    - by rewrite Hw. }
  rewrite (normalize_text_join n) by done. rewrite Hlower, Hkeep.
  subst n. rewrite split_normalize_text by done.
  symmetry. by apply normalize_text_join.
Qed.

End Strings.

Section Alignment.
Context {U : Unicode} {O : FloatOps}.

(** ** More on [word_similarity] *)


(** ** More on the word timeline *)

Lemma words_of_imap (f : nat → str → token) ws :
  (∀ i w, word (f i w) = w) → map word (imap f ws) = ws.
Proof.
  revert f. induction ws as [|w ws IH]; intros f Hf; [done|].
  cbn. rewrite Hf, IH; [done|]. intros i w'. apply Hf.
Qed.

Lemma segment_tokens_words seg toks :
  segment_tokens seg = Ok toks → map word toks = segment_words seg.
Proof.
  rewrite segment_tokens_spec. intros [= <-]. by apply words_of_imap.
Qed.

Lemma timeline_from_words segs acc :
  ∃ tl,
    foldM (λ tl sg, toks ← segment_tokens sg; Ok (tl ++ toks)) acc segs = Ok tl
    ∧ map word tl = map word acc ++ concat (map segment_words segs).
Proof.
  revert acc. induction segs as [|seg segs IH]; intros acc.
  - exists acc. cbn. by rewrite app_nil_r.
  - rewrite build_timeline_cons_from.
    destruct (segment_tokens seg) as [toks|e] eqn:E.
    2:{ rewrite segment_tokens_spec in E. done. }
    cbn. destruct (IH (acc ++ toks)) as (tl & -> & Hwords).
    exists tl. split; [done|].
    rewrite Hwords, map_app, (segment_tokens_words _ _ E), <- app_assoc. done.
Qed.

(** X6. Lines 44-59: the words of the timeline are the normalized words of
    the segments, in the order of the segments; a segment without words
    adds nothing. *)
Theorem timeline_words segs :
  ∃ tl, build_timeline segs = Ok tl
    ∧ map word tl = concat (map segment_words segs)
    ∧ length tl = length (concat (map segment_words segs)).
Proof.
  destruct (timeline_from_words segs []) as (tl & Htl & Hwords).
  exists tl. split; [done|]. cbn in Hwords. split; [done|].
  by rewrite <- Hwords, length_map.
Qed.


(** X8. Lines 61-63: when no segment has a word (in particular for no
    segments at all), every line gets null timing and keeps its text as
    given. *)
Theorem wordless_segments_give_null_timing segs lines :
  Forall (λ seg, segment_words seg = []) segs →
  fallback_align segs lines = Ok (map (λ l, Aligned l None None) lines).
Proof.
  intros Hall. destruct (timeline_from_words segs []) as (tl & Htl & Hwords).
  assert (concat (map segment_words segs) = []) as Hnil.
  { clear -Hall. induction Hall as [|seg segs Hseg _ IH]; [done|].
    cbn. by rewrite Hseg, IH. }
  rewrite Hnil in Hwords. cbn in Hwords.
  destruct tl as [|t tl]; [|done].
  unfold fallback_align, build_timeline. by rewrite Htl.
Qed.

(** ** More on the anchor and the loop *)

(** X9. Lines 65-81: over a non-empty timeline the anchor is an index of
    the timeline below 50, and it is 0 when the first three lyric lines
    have no word. *)
Theorem anchor_in_range tl lines :
  tl ≠ [] →
  ∃ a, find_anchor tl lines = Ok a
    ∧ a < length tl ∧ a < 50
    ∧ (split (first_few_lyrics lines) = [] → a = 0).
Proof.
  intros Htl. unfold find_anchor.
  destruct (anchor_search_spec tl (first_few_lyrics lines))
    as (a & Ha & Hcases).
  exists a. split; [done|].
  assert (0 < length tl) by (destruct tl; [done | cbn; lia]).
  destruct Hcases as [(-> & _)|(Hlt & Hpos & _)].
  - repeat split; lia.
  - repeat split; [lia | lia |]. intros Hnil.
    unfold overlap_score in Hpos. rewrite Hnil in Hpos. cbn in Hpos. lia.
Qed.

(** A property of the entry emitted for each line, proved for one
    iteration together with an invariant of the state, holds along the
    whole loop. *)
Lemma align_lines_Forall2 (I : loop_state → Prop) (P : str → aligned → Prop)
    tl lines st :
  (∀ s l, I s → ∃ s' r, align_line tl s l = Ok s'
                        ∧ results s' = results s ++ [r] ∧ I s' ∧ P l r) →
  I st →
  ∃ st' rs, align_lines tl st lines = Ok st'
            ∧ results st' = results st ++ rs ∧ I st' ∧ Forall2 P lines rs.
Proof.
  intros Hstep. revert st. induction lines as [|l lines IH]; intros st Hst.
  - exists st, []. cbn. rewrite app_nil_r. repeat split; [done | constructor].
  - destruct (Hstep st l Hst) as (s1 & r & Hs1 & Hres & HI & HP).
    destruct (IH s1 HI) as (st' & rs & Hst' & Hres' & HI' & Hall).
    exists st', (r :: rs). unfold align_lines in *. cbn. rewrite Hs1. cbn.
    split; [done|]. split; [|split; [done | by constructor]].
    by rewrite Hres', Hres, <- app_assoc.
Qed.

(** X10. Lines 98-119: the pointer never goes past the end of the
    timeline, and one line moves it forward by at most 49 plus the number
    of words of the line. *)
Theorem pointer_stays_in_timeline tl st :
  current_pos st ≤ length tl →
  (∀ raw st', align_line tl st raw = Ok st' →
     current_pos st' ≤ length tl
     ∧ current_pos st'
       ≤ current_pos st + 49 + length (lyric_words_of raw))
  ∧ (∀ lines st', align_lines tl st lines = Ok st' →
       current_pos st' ≤ length tl).
Proof.
  assert (∀ s raw s', current_pos s ≤ length tl →
            align_line tl s raw = Ok s' →
            current_pos s' ≤ length tl
            ∧ current_pos s'
              ≤ current_pos s + 49 + length (lyric_words_of raw)) as Hstep.
  { intros s raw s' Hp Hs'.
    destruct (align_line_cases tl s raw) as (s0 & Hs0 & Hcases).
    rewrite Hs' in Hs0. injection Hs0 as <-.
    destruct Hcases as [(_ & ->)|[(HW & Hlt & Hm)|(_ & _ & ->)]];
      [cbn; lia | | cbn; lia].
    destruct Hm as (best & j & first & final & Hbm & _ & _ & ->).
    destruct (best_match_total tl (current_pos s) (lyric_words_of raw))
      as (best' & j' & Hbm' & _ & Hwin & _).
    cbn in Hbm. rewrite Hbm in Hbm'. injection Hbm' as <- <-.
    cbn. lia. }
  intros Hp. split; [intros raw st'; by apply Hstep|].
  intros lines st' Hst'.
  apply (align_lines_invariant (λ s, current_pos s ≤ length tl)
           tl lines st st'); [|done|done].
  intros s l s' Hs Hl. by apply (Hstep s l s').
Qed.

(** X11. Lines 113-128: once the pointer has reached the end of the
    timeline it stays there; every later line without words gets null
    timing and every later line with words a synthesized span of 2. *)
Theorem exhaustion_is_permanent tl st lines :
  length tl ≤ current_pos st →
  ∃ rs,
    align_lines tl st lines
    = Ok (LoopState (current_pos st) (results st ++ rs))
    ∧ Forall2 (λ l r,
         line r = strip l
         ∧ (lyric_words_of l = [] → start r = None ∧ end_ r = None)
         ∧ (lyric_words_of l ≠ [] →
            ∃ t, start r = Some t ∧ end_ r = Some (t + 2)%F))
        lines rs.
Proof.
  intros Hp.
  destruct (align_lines_Forall2
              (λ s, current_pos s = current_pos st)
              (λ l r, line r = strip l
                 ∧ (lyric_words_of l = [] → start r = None ∧ end_ r = None)
                 ∧ (lyric_words_of l ≠ [] →
                    ∃ t, start r = Some t ∧ end_ r = Some (t + 2)%F))
              tl lines st) as (st' & rs & Hst' & Hres & Hpos & Hall);
    [|done|].
  - intros s l Hs.
    destruct (align_line_cases tl s l) as (s' & Hs' & Hcases).
    destruct Hcases as [(HW & ->)|[(_ & Hlt & _)|(HW & _ & ->)]]; [|lia|].
    + eexists _, _. split; [done|]. cbn. repeat split; done.
    + destruct (gap_fill_shape (results s) (strip l)) as (t & Ht & _).
      eexists _, _. split; [done|]. cbn. rewrite Ht. cbn.
      repeat split; [done | done | done |]. eauto.
  - exists rs. split; [|done]. rewrite Hst'. f_equal.
    destruct st'. cbn in *. by subst.
Qed.

(** X12. Lines 82-128: over a non-empty timeline a line gets null timing
    exactly when it has no normalized word (blank or punctuation only),
    and then both times are null; over an empty timeline every line gets
    null timing. *)
Theorem null_timing_iff_no_words segs lines :
  ∃ tl rs, build_timeline segs = Ok tl
    ∧ fallback_align segs lines = Ok rs
    ∧ (tl ≠ [] →
       ∀ i l r, lines !! i = Some l → rs !! i = Some r →
         (start r = None ↔ lyric_words_of l = [])
         ∧ (end_ r = None ↔ lyric_words_of l = []))
    ∧ (tl = [] → ∀ r, r ∈ rs → start r = None ∧ end_ r = None).
Proof.
  destruct (fallback_align_cases segs lines) as (tl & Htl & Hcases).
  exists tl.
  destruct Hcases as [(-> & Hfa)|(Hne & a & st & Ha & _ & Hst & Hfa)].
  - eexists. split; [done|]. split; [done|]. split; [done|].
    intros _ r Hr. by apply list_elem_of_In, in_map_iff in Hr as (l & <- & _).
  - exists (results st). split; [done|]. split; [done|]. split; [|done].
    intros _ i l r Hl Hr.
    destruct (align_lines_Forall2 (λ _, True)
                (λ l r, (start r = None ↔ lyric_words_of l = [])
                        ∧ (end_ r = None ↔ lyric_words_of l = []))
                tl lines (LoopState a []))
      as (st' & rs & Hst' & Hres & _ & Hall); [|done|].
    + intros s l0 _.
      destruct (align_line_cases tl s l0) as (s' & Hs' & Hcases).
      destruct Hcases as [(HW & ->)|[(HW & _ & Hm)|(HW & _ & ->)]].
      * eexists _, _. split; [done|]. cbn. repeat split; done.
      * destruct Hm as (best & j & first & final & _ & _ & _ & ->).
        eexists _, _. split; [done|]. cbn. repeat split; done.
      * destruct (gap_fill_shape (results s) (strip l0)) as (t & Ht & _).
        eexists _, _. split; [done|]. cbn. rewrite Ht. cbn.
        repeat split; done.
    + rewrite Hst in Hst'. injection Hst' as <-. cbn in Hres.
      rewrite Hres in Hr.
      by destruct (Forall2_lookup_lr _ _ _ _ _ _ Hall Hl Hr).
Qed.

(** ** Matched lines in time *)

Lemma in_order_before `{!FloatOrder} lo hi tl i j a b :
  in_order lo hi tl → i < j → tl !! i = Some a → tl !! j = Some b →
  (word_end a <= word_start b)%F.
Proof.
  revert lo i j. induction tl as [|t0 tl IH]; intros lo i j; cbn; [done|].
  intros (H1 & H2 & H3) Hij Hi Hj. destruct j as [|j]; [lia|].
  destruct i as [|i]; cbn in *.
  - injection Hi as ->.
    by destruct (in_order_bounds _ _ _ _ _ H3 Hj) as (? & _).
  - eapply (IH _ i j); [done | lia | done | done].
Qed.

Lemma align_lines_results_length tl lines st st' :
  align_lines tl st lines = Ok st' →
  length (results st') = length (results st) + length lines.
Proof.
  intros Hst'.
  destruct (align_lines_results tl lines st) as (s & rs & Hs & Hres & Hall & _).
  rewrite Hst' in Hs. injection Hs as <-.
  rewrite Hres, length_app. apply Forall2_length in Hall. lia.
Qed.

(** The entry emitted for line [k] is the entry at index [k] of the
    final list. *)
Lemma results_lookup tl a lines k sk l sk' st :
  align_lines tl (LoopState a []) (take k lines) = Ok sk →
  lines !! k = Some l → align_line tl sk l = Ok sk' →
  align_lines tl (LoopState a []) lines = Ok st →
  ∃ r, results sk' = results sk ++ [r] ∧ results st !! k = Some r.
Proof.
  intros Hsk Hl Hsk' Hst.
  destruct (align_line_step _ _ _ _ Hsk') as (_ & r & Hres & _).
  exists r. split; [done|].
  pose proof (lookup_lt_Some _ _ _ Hl) as Hk.
  assert (length (results sk) = k) as Hlen.
  { rewrite (align_lines_results_length _ _ _ _ Hsk). cbn.
    rewrite length_take. lia. }
  assert (align_lines tl (LoopState a []) (take (S k) lines) = Ok sk') as HSk.
  { by rewrite (take_S_r lines k l Hl), align_lines_snoc, Hsk. }
  assert (align_lines tl (LoopState a []) (take (length lines) lines) = Ok st)
    as Hall by (by rewrite take_ge).
  pose proof (align_lines_take tl _ lines (S k) (length lines) sk' st
                ltac:(lia) HSk Hall) as Hrest.
  destruct (align_lines_results tl (drop (S k) (take (length lines) lines)) sk')
    as (s & rs & Hs & Hres' & _).
  rewrite Hrest in Hs. injection Hs as <-.
  rewrite Hres', Hres, <- app_assoc. rewrite lookup_app_r by lia.
  by rewrite Hlen, Nat.sub_diag.
Qed.


(** ** A line that repeats a segment *)

Lemma startswith_app s w : startswith (w ++ s) w = true.
Proof.
  induction w as [|c w IH]; cbn; [by destruct s|]. by rewrite N.eqb_refl.
Qed.

Lemma contains_unfold s w :
  contains s w
  = startswith s w || match s with [] => false | _ :: s' => contains s' w end.
Proof. by destruct s. Qed.

Lemma contains_prefix s w : contains (w ++ s) w = true.
Proof. by rewrite contains_unfold, startswith_app. Qed.

Lemma contains_app_r p s w : contains s w = true → contains (p ++ s) w = true.
Proof.
  intros Hs. induction p as [|c p IH]; [done|].
  rewrite contains_unfold. cbn [app]. rewrite IH. apply orb_true_r.
Qed.

Lemma contains_join ws w : w ∈ ws → contains (join ws) w = true.
Proof.
  induction ws as [|w0 [|w1 ws] IH].
  - by intros ?%elem_of_nil.
  - intros ->%list_elem_of_singleton. cbn [join].
    rewrite <- (app_nil_r w0) at 1. apply contains_prefix.
  - rewrite join_cons_cons. intros [->|Hw]%elem_of_cons.
    + apply contains_prefix.
    + change (w0 ++ SPACE :: join (w1 :: ws))
        with (w0 ++ [SPACE] ++ join (w1 :: ws)).
      rewrite app_assoc. apply contains_app_r. by apply IH.
Qed.

Lemma filter_length_all {A} (p : A → bool) l :
  (∀ x, x ∈ l → p x = true) → length (List.filter p l) = length l.
Proof.
  induction l as [|x l IH]; intros Hall; cbn; [done|].
  rewrite (Hall x) by left. cbn. rewrite IH; [done|].
  intros y Hy. apply Hall. by right.
Qed.

Lemma filter_length_bound {A} (p : A → bool) l :
  length (List.filter p l) ≤ length l.
Proof. induction l as [|x l IH]; cbn; [done|]. destruct (p x); cbn; lia. Qed.

(** With at most 15 words in the timeline and every word of the reference
    among them, the anchor is 0. *)
Lemma anchor_of_short_timeline tl R :
  tl ≠ [] → length tl ≤ 15 → split R = map word tl →
  anchor_search tl R = Ok 0.
Proof.
  intros Htl Hlen HR.
  destruct (anchor_search_spec tl R) as (pos & -> & Hcases).
  destruct Hcases as [(-> & _)|(Hlt & Hpos & Hall)]; [done|].
  destruct (decide (pos = 0)) as [->|Hne]; [done|]. exfalso.
  destruct (Hall 0 ltac:(lia)) as (_ & Hzero). specialize (Hzero ltac:(lia)).
  assert (overlap_score R (window_at tl 0) = length (split R)) as Hfull.
  { unfold overlap_score, window_at. rewrite drop_0, take_ge by done.
    apply filter_length_all. intros w Hw. apply contains_join.
    by rewrite <- HR. }
  pose proof (filter_length_bound (λ w, contains (window_at tl pos) w)
                (split R)) as Hbound.
  unfold overlap_score in *. lia.
Qed.

(** The offset kept by the search is the pointer or an offset at which
    the line fits. *)
Lemma best_match_fits tl p W best j :
  best_match tl p W = Ok (best, j) → j = p ∨ j + length W ≤ length tl.
Proof.
  unfold best_match, search_range. intros Hbm.
  destruct (search_result tl W p (min (p + 50) (length tl) - p) 0%F p)
    as (best' & j' & Hbm' & Hcases).
  rewrite Hbm in Hbm'. injection Hbm' as <- <-.
  destruct Hcases as [->|[_ ?]]; [by left | by right].
Qed.

(** X14. Lines 40-130: for one segment of [k ≤ 15] words and one lyric
    line with the same normalized words, the line is matched at the start
    of the timeline: its entry carries the stripped line, the start time of
    the first token of the segment and the end time of the last, as they
    are computed from the [k]-th part of the duration. *)
Theorem line_repeating_segment seg l :
  segment_words seg ≠ [] → length (segment_words seg) ≤ 15 →
  split (normalize_text l) = segment_words seg →
  lyric_words_of l = segment_words seg →
  let k := length (segment_words seg) in
  let part := ((seg_end seg - seg_start seg) / flt_of_nat k)%F in
  fallback_align [seg] [l]
  = Ok [Aligned (strip l)
          (Some (seg_start seg + 0 * part)%F)
          (Some (seg_start seg + flt_of_nat (k - 1) * part + part)%F)].
Proof.
  intros Hne Hlen Hnorm HW k part.
  set (ws := segment_words seg) in *.
  set (f := λ (i : nat) (w : str),
         Token w (seg_start seg + flt_of_nat i * part)%F
                 (seg_start seg + flt_of_nat i * part + part)%F).
  assert (0 < k) as Hk by (subst k; destruct ws; [done | cbn; lia]).
  assert (build_timeline [seg] = Ok (imap f ws)) as Htl.
  { unfold build_timeline. cbn. rewrite segment_tokens_spec. done. }
  assert (length (imap f ws) = k) as Hlentl by apply length_imap.
  assert (map word (imap f ws) = ws) as Hwords by (by apply words_of_imap).
  assert (imap f ws ≠ []) as Hnonempty.
  { intros E. rewrite E in Hlentl. cbn in Hlentl. lia. }
  assert (strip l ≠ []) as Hstrip.
  { intros E. apply lyric_words_blank in E. rewrite HW in E. done. }
  assert (find_anchor (imap f ws) [l] = Ok 0) as Hanchor.
  { apply anchor_of_short_timeline; [done | lia |].
    unfold first_few_lyrics. cbn.
    rewrite bool_decide_eq_false_2 by done. cbn.
    fold (split (normalize_text l)). by rewrite Hnorm, Hwords. }
  destruct (align_line_cases (imap f ws) (LoopState 0 []) l)
    as (st' & Hst' & Hcases).
  destruct Hcases as [(E & _)|[(_ & _ & Hm)|(_ & Hp & _)]];
    [by rewrite HW in E | | cbn in Hp; lia].
  destruct Hm as (best & j & first & final & Hbm & Hfirst & Hfinal & ->).
  cbn in Hbm. rewrite HW in Hbm, Hfinal. fold k in Hfinal.
  assert (j = 0) as ->.
  { apply best_match_fits in Hbm as [->|Hfit]; [done|].
    fold k in Hfit. lia. }
  rewrite Hlentl in Hfinal.
  replace (min (0 + k - 1) (k - 1)) with (k - 1) in Hfinal by lia.
  apply list_lookup_imap_Some in Hfirst as (w0 & _ & ->).
  apply list_lookup_imap_Some in Hfinal as (w1 & _ & ->).
  unfold fallback_align. rewrite Htl. cbn.
  destruct (imap f ws) as [|t tl'] eqn:Etl; [done|].
  rewrite Hanchor. cbn. unfold align_lines. cbn. rewrite Hst'. done.
Qed.

End Alignment.


(** * Properties of the two [main] functions *)

Section DriverProperties.
Context {U : Unicode} {O : FloatOps}.

Lemma split_on_from_length sep cur s :
  length (split_on_from sep cur s)
  = S (length (List.filter (λ c, (c =? sep)%N) s)).
Proof.
  revert cur. induction s as [|c s IH]; intros cur; cbn; [done|].
  destruct (c =? sep)%N; cbn; by rewrite IH.
Qed.

Lemma split_on_from_chars sep cur s piece c :
  piece ∈ split_on_from sep cur s → c ∈ piece → c ∈ cur ∨ c ∈ s.
Proof.
  revert cur. induction s as [|a s IH]; intros cur; cbn.
  - intros ->%list_elem_of_singleton Hc. left.
    by apply list_elem_of_In, in_rev, list_elem_of_In in Hc.
  - destruct (a =? sep)%N.
    + intros [->|Hp]%elem_of_cons Hc.
      * left. by apply list_elem_of_In, in_rev, list_elem_of_In in Hc.
      * destruct (IH [] Hp Hc) as [?%elem_of_nil|?]; [done|]. right. by right.
    + intros Hp Hc. destruct (IH (a :: cur) Hp Hc) as [Hin|?].
      * apply elem_of_cons in Hin as [->|?]; [right; left | by left].
      * right. by right.
Qed.

(** A text of whitespace only has blank lines only. *)
Lemma blank_text_blank_lines text :
  strip text = [] → Forall (λ l, strip l = []) (split_on NEWLINE text).
Proof.
  rewrite strip_nil. intros Hall. apply Forall_forall. intros l Hl.
  apply strip_nil, Forall_forall. intros c Hc.
  destruct (split_on_from_chars _ _ _ _ _ Hl Hc) as [?%elem_of_nil|Hin];
    [done|].
  by eapply Forall_forall in Hall.
Qed.

Lemma forallb_blank lines :
  forallb (λ l, bool_decide (strip l = [])) lines = true
  ↔ Forall (λ l, strip l = []) lines.
Proof.
  rewrite forallb_forall, Forall_forall. split; intros Hall l Hl.
  - apply list_elem_of_In, Hall in Hl. by apply bool_decide_eq_true in Hl.
  - apply bool_decide_eq_true, Hall. by apply list_elem_of_In.
Qed.

(** Lines 150-151 add nothing to the test of line 172. *)
Lemma no_lyrics_spec text :
  no_lyrics (lyrics_lines_of text) = true
  ↔ Forall (λ l, strip l = []) (split_on NEWLINE text).
Proof.
  unfold lyrics_lines_of. destruct (strip text) eqn:E.
  - split; [intros _; by apply blank_text_blank_lines | done].
  - unfold no_lyrics. destruct (split_on NEWLINE text) eqn:Es.
    + pose proof (split_on_from_length NEWLINE [] text) as Hlen.
      unfold split_on in Es. rewrite Es in Hlen. done.
    + apply forallb_blank.
Qed.

Lemma lyrics_lines_of_some text :
  no_lyrics (lyrics_lines_of text) = false →
  lyrics_lines_of text = split_on NEWLINE text.
Proof.
  unfold lyrics_lines_of. destruct (strip text); [done|]. done.
Qed.

Lemma main_with_arguments transcribe argv audio lyrics :
  argv !! 1 = Some audio → argv !! 2 = Some lyrics →
  main transcribe argv
  = if no_lyrics (lyrics_lines_of lyrics)
    then Exit 0 (Some (pure_transcript (transcribe audio)))
    else match fallback_align (transcribe audio) (lyrics_lines_of lyrics) with
         | Ok mapped => Exit 0 (Some mapped)
         | Raise e => Uncaught e
         end.
Proof.
  intros Ha Hl. unfold main.
  pose proof (lookup_lt_Some _ _ _ Hl) as Hlen.
  rewrite (proj2 (Nat.ltb_ge _ _)) by lia.
  unfold subscript. by rewrite Ha, Hl.
Qed.

(** X15. [main], lines 132-181: with fewer than two arguments after the
    program name the process exits with status 2 and prints nothing;
    otherwise it prints one list and exits with status 0, whatever the
    recognizer returns: no exception escapes the alignment. *)
Theorem main_exit_status transcribe argv :
  (length argv < 3 → main transcribe argv = Exit 2 None)
  ∧ (3 ≤ length argv → ∃ out, main transcribe argv = Exit 0 (Some out)).
Proof.
  split.
  - intros Hlen. unfold main. by rewrite (proj2 (Nat.ltb_lt _ _)) by done.
  - intros Hlen.
    destruct (lookup_lt_is_Some_2 argv 1 ltac:(lia)) as [audio Ha].
    destruct (lookup_lt_is_Some_2 argv 2 ltac:(lia)) as [lyrics Hl].
    rewrite (main_with_arguments _ _ _ _ Ha Hl).
    destruct (no_lyrics (lyrics_lines_of lyrics)); [eauto|].
    destruct (fallback_align_lines (transcribe audio) (lyrics_lines_of lyrics))
      as (tl & rs & _ & -> & _).
    eauto.
Qed.

(** X16. Lines 146-181: the segments are printed as they are exactly when
    every line of the lyrics is blank (in particular for empty lyrics);
    otherwise the lines, split at the newline characters, are aligned. *)
Theorem main_chooses_path transcribe argv audio lyrics :
  argv !! 1 = Some audio → argv !! 2 = Some lyrics →
  (Forall (λ l, strip l = []) (split_on NEWLINE lyrics) →
   main transcribe argv
   = Exit 0 (Some (pure_transcript (transcribe audio))))
  ∧ (¬ Forall (λ l, strip l = []) (split_on NEWLINE lyrics) →
     ∃ mapped,
       fallback_align (transcribe audio) (split_on NEWLINE lyrics) = Ok mapped
       ∧ main transcribe argv = Exit 0 (Some mapped)).
Proof.
  intros Ha Hl. rewrite (main_with_arguments _ _ _ _ Ha Hl). split.
  - intros Hblank. by rewrite (proj2 (no_lyrics_spec lyrics) Hblank).
  - intros Hsome.
    destruct (no_lyrics (lyrics_lines_of lyrics)) eqn:E.
    { by apply no_lyrics_spec in E. }
    rewrite (lyrics_lines_of_some _ E).
    destruct (fallback_align_lines (transcribe audio) (split_on NEWLINE lyrics))
      as (tl & rs & _ & Hrs & _).
    exists rs. by rewrite Hrs.
Qed.

(** X17. Lines 146-181: when some line of the lyrics is not blank, the
    list printed has one entry more than the lyrics have newline
    characters. *)
Theorem aligned_output_count transcribe argv audio lyrics :
  argv !! 1 = Some audio → argv !! 2 = Some lyrics →
  ¬ Forall (λ l, strip l = []) (split_on NEWLINE lyrics) →
  ∃ mapped,
    main transcribe argv = Exit 0 (Some mapped)
    ∧ length mapped
      = S (length (List.filter (λ c, (c =? NEWLINE)%N) lyrics)).
Proof.
  intros Ha Hl Hsome. rewrite (main_with_arguments _ _ _ _ Ha Hl).
  destruct (no_lyrics (lyrics_lines_of lyrics)) eqn:E.
  { by apply no_lyrics_spec in E. }
  rewrite (lyrics_lines_of_some _ E).
  destruct (fallback_align_lines (transcribe audio) (split_on NEWLINE lyrics))
    as (tl & rs & _ & Hrs & Hall).
  exists rs. rewrite Hrs. split; [done|].
  apply Forall2_length in Hall. rewrite <- Hall. apply split_on_from_length.
Qed.


End DriverProperties.

(** ** The conversion of [faster_whisper_cli.py] *)

Section CliProperties.
Context {O : FloatOps}.

Lemma convert_from segments acc :
  Cli.tr_segments (foldl Cli.convert_step acc segments)
  = Cli.tr_segments acc
    ++ imap (λ i segment,
               Cli.SegDict (length (Cli.tr_segments acc) + i)
                 (Cli.fw_start segment) (Cli.fw_end segment)
                 (Cli.fw_text segment)
                 (Cli.convert_words (Cli.fw_words segment))) segments
  ∧ Cli.tr_text (foldl Cli.convert_step acc segments)
    = Cli.tr_text acc ++ concat (map Cli.fw_text segments)
  ∧ Cli.tr_language (foldl Cli.convert_step acc segments)
    = Cli.tr_language acc.
Proof.
  revert acc. induction segments as [|segment segments IH]; intros acc; cbn.
  - by rewrite !app_nil_r.
  - destruct (IH (Cli.convert_step acc segment)) as (-> & -> & ->). cbn.
    rewrite <- !app_assoc. repeat split. do 2 f_equal. cbn.
    rewrite Nat.add_0_r. f_equal. apply imap_ext. intros i x _. cbn.
    rewrite length_app. cbn. f_equal. lia.
Qed.

(** X19. [main] of [faster_whisper_cli.py], lines 36-60: the output has
    one segment per input segment, in order; the i-th carries the id [i]
    and the start, end and text of the i-th input segment; the language is
    passed on. *)
Theorem convert_segments segments language :
  length (Cli.tr_segments (Cli.convert segments language)) = length segments
  ∧ (∀ i segment, segments !! i = Some segment →
       Cli.tr_segments (Cli.convert segments language) !! i
       = Some (Cli.SegDict i (Cli.fw_start segment) (Cli.fw_end segment)
                 (Cli.fw_text segment)
                 (Cli.convert_words (Cli.fw_words segment))))
  ∧ Cli.tr_language (Cli.convert segments language) = language.
Proof.
  unfold Cli.convert.
  destruct (convert_from segments (Cli.Transcription [] [] language))
    as (-> & _ & ->).
  cbn. split; [apply length_imap|]. split; [|done].
  intros i segment Hi. rewrite list_lookup_imap, Hi. done.
Qed.

Lemma texts_of_imap (f : nat → Cli.fw_segment → Cli.seg_dict) segments :
  (∀ i x, Cli.sd_text (f i x) = Cli.fw_text x) →
  map Cli.sd_text (imap f segments) = map Cli.fw_text segments.
Proof.
  revert f. induction segments as [|x segments IH]; intros f Hf; [done|].
  cbn. rewrite Hf, IH; [done|]. intros i y. apply Hf.
Qed.

(** X20. Lines 36-60: the text of the output is the concatenation of the
    texts of the input segments, which is also the concatenation of the
    texts of the output segments. *)
Theorem convert_text segments language :
  Cli.tr_text (Cli.convert segments language)
  = concat (map Cli.fw_text segments)
  ∧ Cli.tr_text (Cli.convert segments language)
    = concat (map Cli.sd_text
                (Cli.tr_segments (Cli.convert segments language))).
Proof.
  unfold Cli.convert.
  destruct (convert_from segments (Cli.Transcription [] [] language))
    as (-> & -> & _).
  cbn. split; [done|]. f_equal. symmetry. by apply texts_of_imap.
Qed.

End CliProperties.

(** * The further properties on concrete input *)

(** [normalize_text_normal_form] on [hello_text]. *)
Lemma normalize_text_normal_form_witness :
  isspace SPACE = true
  ∧ normalize_text hello_text = py "hello world"
  ∧ normalize_text hello_text = join (split (normalize_text hello_text)).
Proof.
  split; [reflexivity|]. split; [vm_compute; reflexivity|].
  exact (proj1 (proj2 (proj2
           (normalize_text_normal_form hello_text eq_refl)))).
Defined.

(** [normalized_words_are_words] on the word ["world"] of [hello_text]. *)
Lemma normalized_words_are_words_witness :
  py "world" ∈ split (normalize_text hello_text)
  ∧ py "world" ≠ []
  ∧ ∀ c, c ∈ py "world" →
         c ∈ lower hello_text ∧ isword c = true ∧ isspace c = false.
Proof.
  assert (py "world" ∈ split (normalize_text hello_text)) as Hw.
  { vm_compute. right. left. }
  split; [exact Hw|].
  exact (normalized_words_are_words hello_text (py "world") eq_refl Hw).
Defined.

(** [reference_words] on [four_lines]. *)
Lemma reference_words_witness :
  isspace SPACE = true
  ∧ split (first_few_lyrics four_lines)
    = [py "hello"; py "world"; py "its"; py "me"]
  ∧ split (first_few_lyrics four_lines)
    = concat (map (λ l, split (normalize_text l))
                  (List.filter (λ l, negb (bool_decide (strip l = [])))
                               (take 3 four_lines))).
Proof.
  split; [reflexivity|]. split; [vm_compute; reflexivity|].
  exact (reference_words four_lines eq_refl).
Defined.

(** [normalize_text_idempotent] on [hello_text]. *)
Lemma normalize_text_idempotent_witness :
  isspace SPACE = true
  ∧ lower (normalize_text hello_text) = normalize_text hello_text
  ∧ normalize_text (normalize_text hello_text) = normalize_text hello_text.
Proof.
  assert (lower (normalize_text hello_text) = normalize_text hello_text)
    as Hlower by (vm_compute; reflexivity).
  split; [reflexivity|]. split; [exact Hlower|].
  exact (normalize_text_idempotent hello_text eq_refl Hlower).
Defined.

(** ** With the floats of the interpreter *)

Section FurtherBinary64.
#[local] Existing Instance binary64.

(** [wordless_segments_give_null_timing] on a segment of punctuation. *)
Lemma wordless_segments_give_null_timing_witness :
  Forall (λ seg, segment_words seg = []) [Segment (py "?!") 0 1]
  ∧ fallback_align [Segment (py "?!") 0 1] [py "hi"; py " yo"]
    = Ok [Aligned (py "hi") None None; Aligned (py " yo") None None].
Proof.
  assert (Forall (λ seg, segment_words seg = []) [Segment (py "?!") 0 1])
    as Hall by (repeat constructor).
  split; [exact Hall|].
  exact (wordless_segments_give_null_timing _ [py "hi"; py " yo"] Hall).
Defined.

(** [anchor_in_range] on the one-word timeline. *)
Lemma anchor_in_range_witness :
  hi_timeline ≠ []
  ∧ ∃ a, find_anchor hi_timeline [py "hi"] = Ok a
      ∧ a < length hi_timeline ∧ a < 50
      ∧ (split (first_few_lyrics [py "hi"]) = [] → a = 0).
Proof.
  assert (hi_timeline ≠ []) as Htl by discriminate.
  split; [exact Htl|]. exact (anchor_in_range hi_timeline [py "hi"] Htl).
Defined.

(** [pointer_stays_in_timeline] from the start of the two-word timeline. *)
Lemma pointer_stays_in_timeline_witness :
  0 ≤ length hi_yo_timeline
  ∧ ∀ lines st',
      align_lines hi_yo_timeline (LoopState 0 []) lines = Ok st' →
      current_pos st' ≤ length hi_yo_timeline.
Proof.
  assert (current_pos (LoopState 0 []) ≤ length hi_yo_timeline) as Hp
    by (cbn; lia).
  split; [exact Hp|].
  exact (proj2 (pointer_stays_in_timeline hi_yo_timeline (LoopState 0 []) Hp)).
Defined.

(** [exhaustion_is_permanent] after the one-word timeline is used up. *)
Lemma exhaustion_is_permanent_witness :
  length hi_timeline ≤ 1
  ∧ ∃ rs,
      align_lines hi_timeline
        (LoopState 1 [Aligned (py "hi") (Some 0%F) (Some 2%F)])
        [py "yo"; py "?!"]
      = Ok (LoopState 1 ([Aligned (py "hi") (Some 0%F) (Some 2%F)] ++ rs))
      ∧ length rs = 2.
Proof.
  assert (length hi_timeline ≤ 1) as Hp by (cbn; lia).
  split; [exact Hp|].
  destruct (exhaustion_is_permanent hi_timeline
              (LoopState 1 [Aligned (py "hi") (Some 0%F) (Some 2%F)])
              [py "yo"; py "?!"] Hp) as (rs & Hrs & Hall).
  exists rs. split; [exact Hrs|]. symmetry. exact (Forall2_length _ _ _ Hall).
Defined.

(** [line_repeating_segment] on [hello_segment] and [hello_line]: the two
    words share the two seconds, and the line gets [0, 2]. *)
Lemma line_repeating_segment_witness :
  segment_words hello_segment ≠ []
  ∧ length (segment_words hello_segment) ≤ 15
  ∧ split (normalize_text hello_line) = segment_words hello_segment
  ∧ lyric_words_of hello_line = segment_words hello_segment
  ∧ fallback_align [hello_segment] [hello_line]
    = Ok [Aligned (strip hello_line)
            (Some (0 + 0 * ((2 - 0) / 2))%F)
            (Some (0 + 1 * ((2 - 0) / 2) + (2 - 0) / 2)%F)]
  ∧ (0 + 0 * ((2 - 0) / 2))%F = 0%F
  ∧ (0 + 1 * ((2 - 0) / 2) + (2 - 0) / 2)%F = 2%F.
Proof.
  assert (segment_words hello_segment ≠ []) as H1
    by (vm_compute; discriminate).
  assert (length (segment_words hello_segment) ≤ 15) as H2
    by (vm_compute; lia).
  assert (split (normalize_text hello_line) = segment_words hello_segment)
    as H3 by (vm_compute; reflexivity).
  assert (lyric_words_of hello_line = segment_words hello_segment)
    as H4 by (vm_compute; reflexivity).
  split; [exact H1|]. split; [exact H2|]. split; [exact H3|].
  split; [exact H4|].
  split; [exact (line_repeating_segment hello_segment hello_line H1 H2 H3 H4)|].
  split; vm_compute; reflexivity.
Defined.

(** [main_chooses_path] on [hi_argv]. *)
Lemma main_chooses_path_witness :
  hi_argv !! 1 = Some (py "song.mp3") ∧ hi_argv !! 2 = Some (py "hi")
  ∧ ∃ mapped,
      fallback_align (hears_hi (py "song.mp3")) (split_on NEWLINE (py "hi"))
      = Ok mapped
      ∧ main hears_hi hi_argv = Exit 0 (Some mapped).
Proof.
  split; [reflexivity|]. split; [reflexivity|].
  apply (proj2 (main_chooses_path hears_hi hi_argv (py "song.mp3") (py "hi")
                  eq_refl eq_refl)).
  intros Hblank. vm_compute in Hblank.
  inversion Hblank as [|? ? Hhead _]. discriminate Hhead.
Defined.

(** [aligned_output_count] on [hi_argv]. *)
Lemma aligned_output_count_witness :
  hi_argv !! 1 = Some (py "song.mp3") ∧ hi_argv !! 2 = Some (py "hi")
  ∧ ¬ Forall (λ l, strip l = []) (split_on NEWLINE (py "hi"))
  ∧ ∃ mapped,
      main hears_hi hi_argv = Exit 0 (Some mapped)
      ∧ length mapped
        = S (length (List.filter (λ c, (c =? NEWLINE)%N) (py "hi"))).
Proof.
  assert (¬ Forall (λ l, strip l = []) (split_on NEWLINE (py "hi")))
    as Hsome.
  { intros Hblank. vm_compute in Hblank.
    inversion Hblank as [|? ? Hhead _]. discriminate Hhead. }
  split; [reflexivity|]. split; [reflexivity|]. split; [exact Hsome|].
  exact (aligned_output_count hears_hi hi_argv (py "song.mp3") (py "hi")
           eq_refl eq_refl Hsome).
Defined.

End FurtherBinary64.

(** ** In exact arithmetic *)

Section FurtherRational.
#[local] Existing Instance rational.
#[local] Existing Instance rational_order.
#[local] Existing Instance rational_laws.




End FurtherRational.
